(** * imapdown: the fetch / dedup / persist pipeline of package [list]

    A shallow embedding of [Worker.log], [Worker.List], [Worker.Iter],
    [Header] and [fn] of package [list], and of [run] of package [main],
    with the IMAP session, the file system, the context and the
    cryptographic primitives made explicit as inputs, followed by the
    properties of the pipeline. *)

From Stdlib Require Import Strings.Byte Strings.Ascii Strings.String.
From Stdlib Require Import NArith ZArith DecimalString DecimalPos DecimalN DecimalZ.
From stdpp Require Import base list strings gmap.

Local Open Scope string_scope.
Local Open Scope list_scope.

(** ** Go values used by the package *)

Abbreviation byte := Byte.byte.
Abbreviation bytes := (list Byte.byte).

(** [error]: a Go error value.  [errorString] is what [errors.New] and a
    [fmt.Errorf] without [%w] build; [wrapError] is what [fmt.Errorf] with
    a [%w] verb builds: the formatted message and the wrapped error. *)
Inductive error : Type :=
| errorString (s : string)
| wrapError (msg : string) (err : error).

(** [err.Error()] *)
Definition Error (e : error) : string :=
  match e with
  | errorString s => s
  | wrapError msg _ => msg
  end.

(** [errors.Unwrap] *)
Definition Unwrap (e : error) : option error :=
  match e with
  | errorString _ => None
  | wrapError _ err => Some err
  end.

(** [fmt.Errorf(prefix + "%w", err)] *)
Definition Errorf_w (prefix : string) (err : error) : error :=
  wrapError (prefix +:+ Error err) err.

(** The outcome of a call: a value, a non-nil error, or a run-time panic. *)
Inductive result (A : Type) : Type :=
| Ok (a : A)
| Err (e : error)
| Panic (msg : string).
Arguments Ok {A} a.
Arguments Err {A} e.
Arguments Panic {A} msg.

Definition nil_deref : string :=
  "runtime error: invalid memory address or nil pointer dereference".

(** [strings.Contains(s, substr)] *)
Fixpoint Contains (s substr : string) : bool :=
  String.prefix substr s ||
  match s with
  | EmptyString => false
  | String _ s' => Contains s' substr
  end.

(** [strconv.FormatInt(i, 10)] *)
Definition FormatInt (i : Z) : string :=
  NilZero.string_of_int (Z.to_int i).

(** [[]byte(s)] and [string(b)] *)
Definition bytes_of_string (s : string) : bytes := list_byte_of_string s.

(** ** encoding/base32, standard alphabet, no padding *)

Module base32.

(** Modelled from the spec: the text form of a key is its base32
    encoding in the RFC 4648 alphabet without padding; the encoder is
    Go's [encoding/base32], which is not part of the repository.  The
    input is read as a bit string, most significant bit first, cut into
    groups of five bits, the last group filled with zero bits, and each
    group is looked up in the alphabet. *)
Definition encodeStd : string := "ABCDEFGHIJKLMNOPQRSTUVWXYZ234567".

Definition bits_of_byte (b : byte) : list bool :=
  let '(b0, (b1, (b2, (b3, (b4, (b5, (b6, b7))))))) := Byte.to_bits b in
  [b7; b6; b5; b4; b3; b2; b1; b0].

Definition bits_of_bytes (src : bytes) : list bool :=
  concat (map bits_of_byte src).

Fixpoint quintets (bs : list bool) : list (list bool) :=
  match bs with
  | [] => []
  | b0 :: b1 :: b2 :: b3 :: b4 :: rest => [b0; b1; b2; b3; b4] :: quintets rest
  | [b0; b1; b2; b3] => [[b0; b1; b2; b3; false]]
  | [b0; b1; b2] => [[b0; b1; b2; false; false]]
  | [b0; b1] => [[b0; b1; false; false; false]]
  | [b0] => [[b0; false; false; false; false]]
  end.

Definition index_of_bits (q : list bool) : nat :=
  fold_left (fun acc (b : bool) => 2 * acc + (if b then 1 else 0)) q 0.

Definition symbol (q : list bool) : ascii :=
  nth (index_of_bits q) (list_ascii_of_string encodeStd) "A"%char.

(** [StdEncoding.WithPadding(NoPadding).EncodeToString(src)] *)
Definition EncodeToString (src : bytes) : string :=
  string_of_list_ascii (map symbol (quintets (bits_of_bytes src))).

End base32.

(** ** The data model *)

Module time.
(** [time.Time]: an instant and the offset of its zone. *)
Record Time : Type := { UnixNano : Z; ZoneOffset : Z }.
End time.

(** [Header]: the metadata block of a stored message. *)
Record Header : Type := {
  Key : string;
  MessageID : string;
  InReplyTo : string;  (* Parent MessageID. *)
  Date : string;
  Folder : string;
  Subject : string;
  From : string;
  Size : string;       (* Length of Body in bytes. *)
  Hash : bytes         (* blake2b of Body. *)
}.

(** The zero value of [Header]: what a composite literal leaves in the
    fields it does not name. *)
Definition Header_zero : Header :=
  {| Key := ""; MessageID := ""; InReplyTo := ""; Date := ""; Folder := "";
     Subject := ""; From := ""; Size := ""; Hash := [] |}.

Module imap.

Record Address : Type := {
  PersonalName : string;
  AtDomainList : string;
  MailboxName : string;
  HostName : string
}.

Record Envelope : Type := {
  Date : time.Time;
  Subject : string;
  From : list Address;
  Sender : list Address;
  ReplyTo : list Address;
  To : list Address;
  Cc : list Address;
  Bcc : list Address;
  InReplyTo : string;
  MessageId : string
}.

(** [imap.Literal], an [io.Reader]: the successive reads return the
    chunks, then [io.EOF] ([readErr = None]) or the error [readErr]. *)
Record Literal : Type := {
  chunks : list bytes;
  readErr : option error
}.

(** [*imap.Message].  [MsgEnvelope] is the field [Envelope], a pointer
    that is nil when the response carries no envelope; [Body] maps a
    body section name to its literal, which may be nil. *)
Record Message : Type := {
  SeqNum : N;
  Uid : N;
  MsgEnvelope : option Envelope;
  Body : gmap string (option Literal)
}.

(** [msg.GetBody(section)]: nil when the section is absent, an empty
    reader when the server sent a nil literal for it. *)
Definition GetBody (m : Message) (section : string) : option Literal :=
  match Body m !! section with
  | Some (Some body) => Some body
  | Some None => Some {| chunks := []; readErr := None |}
  | None => None
  end.

Record MailboxInfo : Type := { Name : string }.

End imap.

(** The primitives of the libraries the package links against, taken as
    they are: the layout [time.RFC3339Nano], the BLAKE2Xb output stream
    (output size, absorbed input, byte index), the BLAKE2b-256 digest and
    the JSON encoding of a [Header] with HTML escaping off. *)
Class Primitives : Type := {
  Time_Format_RFC3339Nano : time.Time -> string;
  blake2b_XOF_stream : nat -> bytes -> nat -> byte;
  blake2b_Sum256 : bytes -> bytes;
  json_Encode : Header -> result bytes
}.

Definition io_EOF : error := errorString "EOF".

Module blake2b.
Section WithPrimitives.
Context `{Primitives}.

(** [blake2b.XOF] built by [NewXOF(size, nil)], for a definite output
    size: the size 0, by which the library means an output of unknown
    length, is not modelled. *)
Record XOF : Type := {
  size : nat;
  data : bytes;
  remaining : nat;
  readMode : bool
}.

Definition Reset (x : XOF) : XOF :=
  {| size := size x; data := []; remaining := size x; readMode := false |}.

Definition NewXOF (sz : nat) : XOF :=
  Reset {| size := sz; data := []; remaining := 0; readMode := false |}.

Definition Write (x : XOF) (p : bytes) : result XOF :=
  if readMode x then Panic "blake2b: write to XOF after read"
  else Ok {| size := size x; data := data x ++ p;
             remaining := remaining x; readMode := false |}.

(** [x.Read(p)]: the state after, the slice after, [n] and [err]. *)
Definition Read (x : XOF) (p : bytes) : XOF * bytes * nat * option error :=
  let x := {| size := size x; data := data x;
              remaining := remaining x; readMode := true |} in
  if Nat.eqb (remaining x) 0 then (x, p, 0, Some io_EOF)
  else
    let n := Nat.min (length p) (remaining x) in
    let out := map (blake2b_XOF_stream (size x) (data x))
                   (seq (size x - remaining x) n) in
    ({| size := size x; data := data x;
        remaining := remaining x - n; readMode := true |},
     out ++ drop n p, n, None).

(** [hash.Hash] built by [blake2b.New256(nil)]: the bytes written since
    the last [Reset]. *)
Record Hash : Type := { written : bytes }.

Definition New256 : Hash := {| written := [] |}.
Definition Hash_Reset (h : Hash) : Hash := {| written := [] |}.
Definition Hash_Write (h : Hash) (p : bytes) : Hash :=
  {| written := written h ++ p |}.
(** [h.Sum(nil)] *)
Definition Hash_Sum (h : Hash) : bytes := blake2b_Sum256 (written h).

End WithPrimitives.
End blake2b.

(** ** The file system and the log *)

(** The store directory [w.Store]: the files in it by name.  Every name
    the package uses is a base32 text, so [filepath.Join(w.Store, name)]
    names the file [name] of the directory. *)
Abbreviation Dir := (gmap string bytes).

(** How an [os.WriteFile] can fail: at [OpenFile], leaving the path as it
    was, or at [Write] or [Close], leaving the first [n] bytes. *)
Inductive WriteFault : Type :=
| OpenFails (e : error)
| WriteFails (e : error) (n : nat).

(** The failures the file system injects, by file name. *)
Record OS : Type := {
  statFault : string -> option error;
  writeFault : string -> option WriteFault
}.

Definition os_ErrNotExist : error := errorString "file does not exist".

(** [os.IsNotExist(err)] *)
Fixpoint os_IsNotExist (e : error) : bool :=
  match e with
  | errorString s => bool_decide (s = "file does not exist")
  | wrapError _ err => os_IsNotExist err
  end.

(** [os.Stat(filepath.Join(w.Store, name))], the error only. *)
Definition os_Stat (os : OS) (store : Dir) (name : string) : option error :=
  match statFault os name with
  | Some e => Some e
  | None =>
    match store !! name with
    | Some _ => None
    | None => Some (wrapError ("stat " +:+ name +:+ ": no such file or directory")
                              os_ErrNotExist)
    end
  end.

(** What a run does to the store, in order: a file written in full, or
    a file left with the part written before the failure. *)
Inductive Event : Type :=
| EvWrite (name : string) (data : bytes)
| EvShortWrite (name : string) (data : bytes).

Definition ev_name (ev : Event) : string :=
  match ev with EvWrite n _ | EvShortWrite n _ => n end.

Definition ev_data (ev : Event) : bytes :=
  match ev with EvWrite _ d | EvShortWrite _ d => d end.

(** The store after the events [evs] have happened to the store [st]. *)
Definition replay (evs : list Event) (st : Dir) : Dir :=
  fold_left (fun st ev => <[ev_name ev := ev_data ev]> st) evs st.

Inductive LogArg : Type :=
| ArgString (s : string)
| ArgInt (i : Z).

(** The state a run acts on: the store, the trace of its writes and the
    calls of [log.Printf] (format and operands). *)
Record World : Type := {
  store : Dir;
  trace : list Event;
  logged : list (string * list LogArg)
}.

(** [os.WriteFile(filepath.Join(w.Store, name), data, 0600)] *)
Definition os_WriteFile (os : OS) (σ : World) (name : string) (data : bytes)
  : World * option error :=
  match writeFault os name with
  | None =>
    ({| store := <[name := data]> (store σ);
        trace := trace σ ++ [EvWrite name data];
        logged := logged σ |}, None)
  | Some (OpenFails e) => (σ, Some e)
  | Some (WriteFails e n) =>
    ({| store := <[name := take n data]> (store σ);
        trace := trace σ ++ [EvShortWrite name (take n data)];
        logged := logged σ |}, Some e)
  end.

Record Worker : Type := {
  Verbose : bool;
  Store : string
}.

Definition TAB : string := String "009"%char "".

(** [w.log(f, v...)] *)
Definition log (w : Worker) (σ : World) (f : string) (v : list LogArg) : World :=
  if negb (Verbose w) then σ
  else {| store := store σ; trace := trace σ; logged := logged σ ++ [(f, v)] |}.

(** ** The session *)

(** The case of a [select] that fires: the context is done, with its
    [ctx.Err()], or the result of the fetch arrives. *)
Inductive SelectArm : Type :=
| ArmCtxDone (e : error)
| ArmResult.

(** One streaming call: the items sent on the channel before it is
    closed, and the value the call returns. *)
Record Stream (A : Type) : Type := {
  items : list A;
  returned : option error
}.
Arguments items {A} _.
Arguments returned {A} _.

(** What the server and the context do while one mailbox is processed. *)
Record Session : Type := {
  selectErr : option error;
  envelopes : Stream imap.Message;
  envelopesArm : SelectArm;
  bodies : gset N -> Stream imap.Message;
  bodiesArm : SelectArm
}.

(** ** The package *)

Section Package.
Context `{Primitives}.

Definition keySize : nat := 32.

Definition fn (xof : blake2b.XOF) (key : bytes) (msgID : string)
  : blake2b.XOF * bytes * result string :=
  let xof := blake2b.Reset xof in
  match blake2b.Write xof (bytes_of_string msgID) with
  | Panic m => (xof, key, Panic m)
  | Err e => (xof, key, Err e)
  | Ok xof =>
    let '(xof, key, n, err) := blake2b.Read xof key in
    match err with
    | Some err => (xof, key, Err (Errorf_w "xof read: " err))
    | None =>
      if negb (Nat.eqb n (length key))
      then (xof, key,
            Err (errorString ("xof invalid read " +:+ FormatInt (Z.of_nat n)
                              +:+ ": %!w(<nil>)")))
      else (xof, key, Ok (base32.EncodeToString key))
    end
  end.

(** The first loop of [Iter], over the messages of the envelope fetch. *)
Fixpoint scan (os : OS) (st : Dir) (xof : blake2b.XOF) (key : bytes)
    (msgs : list imap.Message) (existCount : nat) (msgList : list N)
  : result (blake2b.XOF * bytes * nat * list N) :=
  match msgs with
  | [] => Ok (xof, key, existCount, msgList)
  | msg :: msgs' =>
    match imap.MsgEnvelope msg with
    | None => Panic nil_deref
    | Some envelope =>
      let '(xof, key, r) := fn xof key (imap.MessageId envelope) in
      match r with
      | Panic m => Panic m
      | Err err => Err (Errorf_w "fn: " err)
      | Ok name =>
        match os_Stat os st name with
        | None => scan os st xof key msgs' (S existCount) msgList
        | Some err =>
          if os_IsNotExist err
          then scan os st xof key msgs' existCount (msgList ++ [imap.SeqNum msg])
          else Err (Errorf_w "store stat: " err)
        end
      end
    end
  end.

Definition headerSep : bytes := bytes_of_string "---" ++ [Byte.x0a].

Definition secName : string := "BODY[]".

(** [io.Copy(bodyBuf, io.TeeReader(body, bodyHasher))]: every chunk read
    from [body] is written to the hasher and appended to the buffer. *)
Fixpoint tee_copy (cs : list bytes) (bodyBuf : bytes) (bodyHasher : blake2b.Hash)
  : bytes * blake2b.Hash :=
  match cs with
  | [] => (bodyBuf, bodyHasher)
  | c :: cs' => tee_copy cs' (bodyBuf ++ c) (blake2b.Hash_Write bodyHasher c)
  end.

(** The variables of [Iter] that outlive one turn of the second loop. *)
Record Locals : Type := {
  l_xof : blake2b.XOF;
  l_key : bytes;
  l_buf : bytes;
  l_bodyBuf : bytes;
  l_bodyHasher : blake2b.Hash
}.

Definition from_of (envelope : imap.Envelope) : string :=
  match imap.From envelope with
  | [] => ""
  | f :: _ =>
    if negb (Nat.eqb (String.length (imap.PersonalName f)) 0)
    then imap.PersonalName f +:+ " <" +:+ imap.MailboxName f +:+ "@"
         +:+ imap.HostName f +:+ ">"
    else "<" +:+ imap.MailboxName f +:+ "@" +:+ imap.HostName f +:+ ">"
  end.

(** The composite literal [Header{...}] of [Iter]; [InReplyTo] is not
    among the fields it names. *)
Definition header_of (mi : imap.MailboxInfo) (name : string)
    (envelope : imap.Envelope) (bodyBuf : bytes) (bodyHasher : blake2b.Hash)
  : Header :=
  {| Key := name;
     MessageID := imap.MessageId envelope;
     InReplyTo := InReplyTo Header_zero;
     Date := Time_Format_RFC3339Nano (imap.Date envelope);
     Folder := imap.Name mi;
     Subject := imap.Subject envelope;
     From := from_of envelope;
     Size := FormatInt (Z.of_nat (length bodyBuf));
     Hash := blake2b.Hash_Sum bodyHasher |}.

(** One turn of the second loop of [Iter]. *)
Definition persist (os : OS) (mi : imap.MailboxInfo) (l : Locals)
    (msg : imap.Message) (σ : World) : World * result Locals :=
  let buf : bytes := [] in
  let bodyBuf : bytes := [] in
  let bodyHasher := blake2b.Hash_Reset (l_bodyHasher l) in
  match imap.MsgEnvelope msg with
  | None => (σ, Panic nil_deref)
  | Some envelope =>
    let '(xof, key, r) := fn (l_xof l) (l_key l) (imap.MessageId envelope) in
    match r with
    | Panic m => (σ, Panic m)
    | Err err => (σ, Err (Errorf_w "fn: " err))
    | Ok name =>
      match imap.GetBody msg secName with
      | None => (σ, Panic nil_deref)
      | Some body =>
        let '(bodyBuf, bodyHasher) :=
          tee_copy (imap.chunks body) bodyBuf bodyHasher in
        match imap.readErr body with
        | Some _ => (σ, Err (errorString "hash body"))
        | None =>
          let h := header_of mi name envelope bodyBuf bodyHasher in
          match json_Encode h with
          | Panic m => (σ, Panic m)
          | Err err => (σ, Err (Errorf_w "marshal header: " err))
          | Ok block =>
            let buf := buf ++ block in
            let buf := buf ++ headerSep in
            let buf := buf ++ bodyBuf in
            let bodyBuf : bytes := [] in
            let l' := {| l_xof := xof; l_key := key; l_buf := buf;
                         l_bodyBuf := bodyBuf; l_bodyHasher := bodyHasher |} in
            match os_WriteFile os σ name buf with
            | (σ, Some err) => (σ, Err (Errorf_w "write: " err))
            | (σ, None) => (σ, Ok l')
            end
          end
        end
      end
    end
  end.

(** The second loop of [Iter], over the messages of the body fetch. *)
Fixpoint fetchLoop (os : OS) (mi : imap.MailboxInfo) (l : Locals)
    (msgs : list imap.Message) (σ : World) : World * result Locals :=
  match msgs with
  | [] => (σ, Ok l)
  | msg :: msgs' =>
    match persist os mi l msg σ with
    | (σ, Ok l) => fetchLoop os mi l msgs' σ
    | (σ, Err e) => (σ, Err e)
    | (σ, Panic m) => (σ, Panic m)
    end
  end.

Definition Iter (w : Worker) (os : OS) (c : Session) (mi : imap.MailboxInfo)
    (σ : World) : World * result unit :=
  let σ := log w σ "Folder: %s" [ArgString (imap.Name mi)] in
  match selectErr c with
  | Some err => (σ, Err (Errorf_w "select: " err))
  | None =>
    let key := replicate keySize Byte.x00 in
    let xof := blake2b.NewXOF keySize in
    match scan os (store σ) xof key (items (envelopes c)) 0 [] with
    | Panic m => (σ, Panic m)
    | Err e => (σ, Err e)
    | Ok (xof, key, existCount, msgList) =>
      match envelopesArm c, returned (envelopes c) with
      | ArmCtxDone e, _ => (σ, Err e)
      | ArmResult, Some err =>
        if Contains (Error err) "No matching messages"
        then (log w σ (TAB +:+ "no-messages") [], Ok ())
        else (σ, Err (Errorf_w "fetch: " err))
      | ArmResult, None =>
        let σ := log w σ (TAB +:+ "fetch %05d messages")
                     [ArgInt (Z.of_nat (length msgList))] in
        let σ := log w σ (TAB +:+ "exist %05d messages")
                     [ArgInt (Z.of_nat existCount)] in
        if Nat.eqb (length msgList) 0
        then (log w σ (TAB +:+ "nothing-to-do") [], Ok ())
        else
          let ss : gset N := list_to_set msgList in
          let l := {| l_xof := xof; l_key := key; l_buf := [];
                      l_bodyBuf := []; l_bodyHasher := blake2b.New256 |} in
          match fetchLoop os mi l (items (bodies c ss)) σ with
          | (σ, Panic m) => (σ, Panic m)
          | (σ, Err e) => (σ, Err e)
          | (σ, Ok _) =>
            match bodiesArm c, returned (bodies c ss) with
            | ArmCtxDone e, _ => (σ, Err e)
            | ArmResult, Some err => (σ, Err err)
            | ArmResult, None => (log w σ (TAB +:+ "done") [], Ok ())
            end
          end
      end
    end
  end.

(** One mailbox of the run: its info, the [ctx.Err()] seen before it is
    processed, and the session while it is. *)
Record Mailbox : Type := {
  mb_info : imap.MailboxInfo;
  mb_ctxErr : option error;
  mb_session : Session
}.

(** What the server and the context do during [List]. *)
Record Server : Type := {
  dialErr : option error;
  loginErr : option error;
  mailboxes : list Mailbox;
  listErr : option error;
  listArm : SelectArm;
  logoutErr : option error
}.

(** The loop of [List] over [miList]. *)
Fixpoint iterAll (w : Worker) (os : OS) (mbs : list Mailbox) (σ : World)
  : World * result unit :=
  match mbs with
  | [] => (σ, Ok ())
  | mb :: mbs' =>
    match mb_ctxErr mb with
    | Some err => (σ, Err err)
    | None =>
      match Iter w os (mb_session mb) (mb_info mb) σ with
      | (σ, Ok _) => iterAll w os mbs' σ
      | (σ, Err err) => (σ, Err (Errorf_w "iter: " err))
      | (σ, Panic m) => (σ, Panic m)
      end
    end
  end.

Definition List (w : Worker) (os : OS) (srv : Server) (server : string)
    (σ : World) : World * result unit :=
  match dialErr srv with
  | Some err => (σ, Err err)
  | None =>
    match loginErr srv with
    | Some err =>
      (σ, Err (wrapError ("login to " +:+ server +:+ ": " +:+ Error err) err))
    | None =>
      match listArm srv, listErr srv with
      | ArmResult, Some err => (σ, Err (Errorf_w "list: " err))
      | _, _ =>
        match iterAll w os (mailboxes srv) σ with
        | (σ, Ok _) =>
          match logoutErr srv with
          | Some err => (σ, Err err)
          | None => (σ, Ok ())
          end
        | r => r
        end
      end
    end
  end.

End Package.

(** ** Package main *)

Section Main.
Context `{Primitives}.

(** The flags of the command, after [flag.Parse()]. *)
Record Flags : Type := {
  flag_host : string;
  flag_user : string;
  flag_pass : string;
  flag_store : string;
  flag_verbose : bool
}.

(** [run]; [mkdirErr] is what [os.MkdirAll] of the store flag returns.  The
    directory it makes, when there is none, is empty: the store of the
    world is the files of the directory in both cases. *)
Definition run (flags : Flags) (mkdirErr : option error) (os : OS)
    (srv : Server) (σ : World) : World * result unit :=
  if Nat.eqb (String.length (flag_host flags)) 0
  then (σ, Err (errorString "missing host"))
  else if Nat.eqb (String.length (flag_store flags)) 0
  then (σ, Err (errorString "missing store"))
  else
    match mkdirErr with
    | Some err => (σ, Err err)
    | None =>
      let w := {| Verbose := flag_verbose flags; Store := flag_store flags |} in
      List w os srv (flag_host flags) σ
    end.

End Main.

(** ** Derived notions *)

Section Derived.
Context `{Primitives}.

(** The 32-byte key [Iter] derives for a message id: the content of [key]
    after [fn], called in the state [Iter] starts in. *)
Definition Derive (msgID : string) : bytes :=
  (fn (blake2b.NewXOF keySize) (replicate keySize Byte.x00) msgID).1.2.

(** The file name of a message id: the text form of its key. *)
Definition storeName (msgID : string) : string :=
  base32.EncodeToString (Derive msgID).

(** The first [keySize] bytes of the BLAKE2Xb stream of a message id. *)
Definition xofOutput (msgID : string) : bytes :=
  map (blake2b_XOF_stream keySize (bytes_of_string msgID)) (seq 0 keySize).

(** The state of the XOF after [fn] has run on a message id. *)
Definition xofAfter (msgID : string) : blake2b.XOF :=
  {| blake2b.size := keySize; blake2b.data := bytes_of_string msgID;
     blake2b.remaining := 0; blake2b.readMode := true |}.

(** The state [Iter] is in after [fn] has been called on the message ids
    [ms], in this order, from the start. *)
Definition afterCalls (ms : list string) : blake2b.XOF * bytes :=
  fold_left (fun s m => (fn s.1 s.2 m).1)
            ms (blake2b.NewXOF keySize, replicate keySize Byte.x00).

End Derived.

Arguments Derive : simpl never.
Arguments storeName : simpl never.
Arguments xofOutput : simpl never.
Arguments keySize : simpl never.

(** ** Notions the properties are stated with *)

Section Notions.
Context `{Primitives}.

(** The inverse of [base32.bits_of_byte]. *)
Definition byte_of_bits (q : list bool) : byte :=
  match q with
  | [b7; b6; b5; b4; b3; b2; b1; b0] =>
    Byte.of_bits (b0, (b1, (b2, (b3, (b4, (b5, (b6, b7)))))))
  | _ => Byte.x00
  end.

(** A byte string as a number, least significant byte first. *)
Definition N_of_bytes (l : bytes) : N :=
  fold_right (fun b acc => (Byte.to_N b + 256 * acc)%N) 0%N l.

(** A message id for every number: its decimal text. *)
Definition msgID_of_N (n : N) : string :=
  NilZero.string_of_uint (N.to_uint n).

(** What [Iter] keeps true of the variables of its second loop. *)
Definition wf_locals (l : Locals) : Prop :=
  blake2b.size (l_xof l) = keySize /\ length (l_key l) = keySize.

(** The data of a file is a record of the body [body] under the header
    [h]: the encoded header, the separator, the body, with the size and
    the digest of that body in the header. *)
Definition RoundTrip (data : bytes) (h : Header) (body : bytes) : Prop :=
  exists block,
    json_Encode h = Ok block /\
    data = block ++ headerSep ++ body /\
    Size h = FormatInt (Z.of_nat (length body)) /\
    Hash h = blake2b_Sum256 body.

(** The file name of a message: that of the message id of its envelope. *)
Definition msgName (msg : imap.Message) : option string :=
  (fun envelope => storeName (imap.MessageId envelope)) <$> imap.MsgEnvelope msg.

(** The event is the write of the record of the message [msg]. *)
Definition record_of (msg : imap.Message) (ev : Event) : Prop :=
  exists envelope body h name data,
    ev = EvWrite name data /\
    imap.MsgEnvelope msg = Some envelope /\
    imap.GetBody msg secName = Some body /\
    imap.readErr body = None /\
    name = storeName (imap.MessageId envelope) /\
    Key h = name /\
    MessageID h = imap.MessageId envelope /\
    RoundTrip data h (concat (imap.chunks body)).

(** An event of a run of the second loop over [msgs] is in order: a file
    written in full is the record of one of the messages. *)
Definition event_ok (msgs : list imap.Message) (ev : Event) : Prop :=
  match ev with
  | EvWrite _ _ => exists msg, msg ∈ msgs /\ record_of msg ev
  | EvShortWrite _ _ => True
  end.

(** The header [Iter] builds for a message with the body [body]. *)
Definition header_for (mi : imap.MailboxInfo) (envelope : imap.Envelope)
    (body : bytes) : Header :=
  header_of mi (storeName (imap.MessageId envelope)) envelope body
            {| blake2b.written := body |}.

(** The state of the variables after a turn that wrote a file. *)
Definition locals_after (envelope : imap.Envelope) (buf : bytes)
    (body : bytes) : Locals :=
  {| l_xof := xofAfter (imap.MessageId envelope);
     l_key := Derive (imap.MessageId envelope);
     l_buf := buf; l_bodyBuf := [];
     l_bodyHasher := {| blake2b.written := body |} |}.

(** The file system reports no failure of [os.Stat] of its own. *)
Definition stat_reliable (os : OS) : Prop :=
  forall name, statFault os name = None.

(** The message has an envelope and the store holds the file named by
    the key of its message id. *)
Definition archived (st : Dir) (msg : imap.Message) : Prop :=
  match imap.MsgEnvelope msg with
  | Some envelope => is_Some (st !! storeName (imap.MessageId envelope))
  | None => False
  end.

#[global] Instance archived_dec st msg : Decision (archived st msg).
Proof. unfold archived. destruct (imap.MsgEnvelope msg); apply _. Defined.

Definition has_envelope (msg : imap.Message) : Prop :=
  is_Some (imap.MsgEnvelope msg).

(** The variables of the second loop when [Iter] enters it. *)
Definition locals_init (xof : blake2b.XOF) (key : bytes) : Locals :=
  {| l_xof := xof; l_key := key; l_buf := []; l_bodyBuf := [];
     l_bodyHasher := blake2b.New256 |}.

(** The world when [Iter] enters its second loop: the calls of [w.log]
    made so far have been recorded. *)
Definition world_at_fetch (w : Worker) (mi : imap.MailboxInfo) (σ : World)
    (existCount : nat) (msgList : list N) : World :=
  log w (log w (log w σ "Folder: %s" [ArgString (imap.Name mi)])
           (TAB +:+ "fetch %05d messages") [ArgInt (Z.of_nat (length msgList))])
      (TAB +:+ "exist %05d messages") [ArgInt (Z.of_nat existCount)].

(** The message goes through a turn of the second loop: it has an
    envelope and a body that reads to its end, its header encodes and the
    file system takes the file. *)
Definition persistable (os : OS) (mi : imap.MailboxInfo) (msg : imap.Message)
  : Prop :=
  exists envelope lit block,
    imap.MsgEnvelope msg = Some envelope /\
    imap.GetBody msg secName = Some lit /\
    imap.readErr lit = None /\
    json_Encode (header_for mi envelope (concat (imap.chunks lit))) = Ok block /\
    writeFault os (storeName (imap.MessageId envelope)) = None.

(** The sequence numbers the scan of a mailbox leaves pending. *)
Definition pendingOf (st : Dir) (c : Session) : list N :=
  imap.SeqNum <$> filter (fun m => ~ archived st m) (items (envelopes c)).

(** The ways a stream of a mailbox fails partway. *)
Inductive Failure : Type :=
| EnvelopeFetchFails (err : error)
| BodyFetchFails (err : error)
| BodyReadFails (pre : list imap.Message) (msg : imap.Message)
                (post : list imap.Message).

Definition fails (os : OS) (mi : imap.MailboxInfo) (c : Session) (st : Dir)
    (f : Failure) : Prop :=
  envelopesArm c = ArmResult /\
  match f with
  | EnvelopeFetchFails err =>
    returned (envelopes c) = Some err /\
    Contains (Error err) "No matching messages" = false
  | BodyFetchFails err =>
    returned (envelopes c) = None /\ pendingOf st c <> [] /\
    let bs := bodies c (list_to_set (pendingOf st c)) in
    Forall (persistable os mi) (items bs) /\
    bodiesArm c = ArmResult /\ returned bs = Some err
  | BodyReadFails pre msg post =>
    returned (envelopes c) = None /\ pendingOf st c <> [] /\
    let bs := bodies c (list_to_set (pendingOf st c)) in
    items bs = pre ++ msg :: post /\
    Forall (persistable os mi) pre /\
    has_envelope msg /\
    exists lit e, imap.GetBody msg secName = Some lit /\ imap.readErr lit = Some e
  end.

(** The messages that went through the second loop before the failure. *)
Definition persisted_before (c : Session) (st : Dir) (f : Failure)
  : list imap.Message :=
  match f with
  | EnvelopeFetchFails _ => []
  | BodyFetchFails _ => items (bodies c (list_to_set (pendingOf st c)))
  | BodyReadFails pre _ _ => pre
  end.

(** The message that was being processed when the failure came. *)
Definition in_flight (f : Failure) : option imap.Message :=
  match f with
  | BodyReadFails _ msg _ => Some msg
  | _ => None
  end.

(** The error [Iter] returns on the failure. *)
Definition failure_error (f : Failure) : error :=
  match f with
  | EnvelopeFetchFails err => Errorf_w "fetch: " err
  | BodyFetchFails err => err
  | BodyReadFails _ _ _ => errorString "hash body"
  end.

(** A failure of [os.Stat] that the file system reports on its own is
    never the one that says the file does not exist. *)
Definition stat_honest (os : OS) : Prop :=
  forall name e, statFault os name = Some e -> os_IsNotExist e = false.

(** The body fetch sends messages the envelope fetch sent and the request
    names, in the order of the mailbox, each with the envelope it had. *)
Definition faithful (c : Session) : Prop :=
  forall ss,
    exists sel,
      sel `sublist_of` filter (fun m => imap.SeqNum m ∈ ss) (items (envelopes c)) /\
      Forall2 (fun m m' => imap.SeqNum m' = imap.SeqNum m /\
                           imap.MsgEnvelope m' = imap.MsgEnvelope m)
              sel (items (bodies c ss)).

(** No two messages of the mailbox have the same key. *)
Definition distinct_keys (c : Session) : Prop :=
  NoDup (msgName <$> items (envelopes c)).

(** No two messages of the mailbox have the same sequence number. *)
Definition distinct_seqnums (c : Session) : Prop :=
  NoDup (imap.SeqNum <$> items (envelopes c)).

Definition well_behaved (c : Session) : Prop :=
  faithful c /\ distinct_keys c /\ distinct_seqnums c.

(** [os.Stat] does not fail on its own for the file of the message. *)
Definition stat_clean (os : OS) (msg : imap.Message) : Prop :=
  exists envelope,
    imap.MsgEnvelope msg = Some envelope /\
    statFault os (storeName (imap.MessageId envelope)) = None.

(** The errors [Iter] returns, by where they come from. *)
Inductive IterError (os : OS) (c : Session) : error -> Prop :=
| IE_select err :
    selectErr c = Some err -> IterError os c (Errorf_w "select: " err)
| IE_stat name err :
    statFault os name = Some err -> os_IsNotExist err = false ->
    IterError os c (Errorf_w "store stat: " err)
| IE_envelopes_ctx e :
    envelopesArm c = ArmCtxDone e -> IterError os c e
| IE_fetch err :
    returned (envelopes c) = Some err ->
    Contains (Error err) "No matching messages" = false ->
    IterError os c (Errorf_w "fetch: " err)
| IE_body ss msg lit err :
    msg ∈ items (bodies c ss) ->
    imap.GetBody msg secName = Some lit -> imap.readErr lit = Some err ->
    IterError os c (errorString "hash body")
| IE_marshal h err :
    json_Encode h = Err err -> IterError os c (Errorf_w "marshal header: " err)
| IE_write_open name err :
    writeFault os name = Some (OpenFails err) ->
    IterError os c (Errorf_w "write: " err)
| IE_write name err n :
    writeFault os name = Some (WriteFails err n) ->
    IterError os c (Errorf_w "write: " err)
| IE_bodies_ctx e :
    bodiesArm c = ArmCtxDone e -> IterError os c e
| IE_bodies ss e :
    returned (bodies c ss) = Some e -> IterError os c e.

(** Two worlds with the same files and the same writes so far; they may
    differ in what has been logged. *)
Definition same_files (σ1 σ2 : World) : Prop :=
  store σ1 = store σ2 /\ trace σ1 = trace σ2.

End Notions.

(** ** Running the model *)

Module Scenario.

(** Stand-ins for the primitives, to run the model on concrete inputs:
    the XOF stream repeats the input (zero-filled), the digest is the
    first 32 bytes of the input (zero-filled), the header is encoded as
    one line of its fields. *)
Definition prims : Primitives := {|
  Time_Format_RFC3339Nano := fun _ => "1970-01-01T00:00:00Z";
  blake2b_XOF_stream := fun _ data i => nth i data Byte.x00;
  blake2b_Sum256 := fun data => take 32 (data ++ replicate 32 Byte.x00);
  json_Encode := fun h =>
    Ok (bytes_of_string
          ("Key=" +:+ Key h +:+ ";MessageID=" +:+ MessageID h
           +:+ ";InReplyTo=" +:+ InReplyTo h +:+ ";Folder=" +:+ Folder h
           +:+ ";From=" +:+ From h +:+ ";Size=" +:+ Size h)
        ++ [Byte.x0a])
|}.

Definition worker : Worker := {| Verbose := true; Store := "store" |}.

(** A file system that never fails on its own. *)
Definition os_ok : OS :=
  {| statFault := fun _ => None; writeFault := fun _ => None |}.

Definition world0 : World := {| store := ∅; trace := []; logged := [] |}.

Definition alice : imap.Address :=
  {| imap.PersonalName := "Alice"; imap.AtDomainList := "";
     imap.MailboxName := "alice"; imap.HostName := "x" |}.

Definition envelope (id parent : string) : imap.Envelope :=
  {| imap.Date := {| time.UnixNano := 0; time.ZoneOffset := 0 |};
     imap.Subject := "hello"; imap.From := [alice];
     imap.Sender := []; imap.ReplyTo := []; imap.To := []; imap.Cc := [];
     imap.Bcc := []; imap.InReplyTo := parent; imap.MessageId := id |}.

(** A message with the body section [BODY[]], sent in two chunks. *)
Definition message (seq : N) (id : string) (c1 c2 : string) : imap.Message :=
  {| imap.SeqNum := seq; imap.Uid := seq;
     imap.MsgEnvelope := Some (envelope id "<parent@x>");
     imap.Body := {[ secName := Some {| imap.chunks := [bytes_of_string c1;
                                                         bytes_of_string c2];
                                        imap.readErr := None |} ]} |}.

(** The same message without the body section. *)
Definition message_no_body (seq : N) (id : string) : imap.Message :=
  {| imap.SeqNum := seq; imap.Uid := seq;
     imap.MsgEnvelope := Some (envelope id "");
     imap.Body := ∅ |}.

(** The same message with a body whose read fails after one chunk. *)
Definition message_bad_body (seq : N) (id : string) (c1 : string) : imap.Message :=
  {| imap.SeqNum := seq; imap.Uid := seq;
     imap.MsgEnvelope := Some (envelope id "");
     imap.Body := {[ secName := Some {| imap.chunks := [bytes_of_string c1];
                                        imap.readErr :=
                                          Some (errorString "connection reset") |} ]} |}.

(** A session that serves a mailbox as it is: the envelope fetch sends
    every message, the body fetch the messages that were asked for. *)
Definition serve (msgs : list imap.Message) : Session :=
  {| selectErr := None;
     envelopes := {| items := msgs; returned := None |};
     envelopesArm := ArmResult;
     bodies := fun ss =>
       {| items := filter (fun m => imap.SeqNum m ∈ ss) msgs; returned := None |};
     bodiesArm := ArmResult |}.

Definition INBOX : imap.MailboxInfo := {| imap.Name := "INBOX" |}.

Definition inbox : list imap.Message :=
  [message 1 "a@x" "Hel" "lo"; message 2 "b@x" "By" "e"].

Definition Empty : imap.MailboxInfo := {| imap.Name := "Empty" |}.
Definition Archive : imap.MailboxInfo := {| imap.Name := "Archive" |}.

(** The start of [Iter]: the XOF and the zeroed key. *)
Definition locals0 : Locals :=
  {| l_xof := @blake2b.NewXOF keySize; l_key := replicate keySize Byte.x00;
     l_buf := []; l_bodyBuf := []; l_bodyHasher := blake2b.New256 |}.

Definition no_messages : error := errorString "A3 NO No matching messages".

(** An empty mailbox: the envelope fetch ends with the server saying
    that no messages match. *)
Definition empty_mailbox : Session :=
  {| selectErr := None;
     envelopes := {| items := []; returned := Some no_messages |};
     envelopesArm := ArmResult;
     bodies := fun _ => {| items := []; returned := None |};
     bodiesArm := ArmResult |}.

(** A mailbox whose one message is gone when its body is asked for: the
    body fetch ends with the server saying that no messages match. *)
Definition vanished : Session :=
  {| selectErr := None;
     envelopes := {| items := [message 1 "a@x" "Hel" "lo"]; returned := None |};
     envelopesArm := ArmResult;
     bodies := fun _ => {| items := []; returned := Some no_messages |};
     bodiesArm := ArmResult |}.

(** A mailbox with two messages of one message id. *)
Definition twins : list imap.Message :=
  [message 1 "a@x" "Hel" "lo"; message 2 "a@x" "By" "e"].

(** A second mailbox: a copy of a message of the inbox, and a new one. *)
Definition archive : list imap.Message :=
  [message 1 "a@x" "Hel" "lo"; message 2 "c@x" "So" "on"].

(** A mailbox whose second message has a body that fails to read, and
    one whose second message has no body section. *)
Definition broken : list imap.Message :=
  [message 1 "c@x" "So" "on"; message_bad_body 2 "d@x" "par"].

Definition mailbox (mi : imap.MailboxInfo) (msgs : list imap.Message) : Mailbox :=
  {| mb_info := mi; mb_ctxErr := None; mb_session := serve msgs |}.

Definition server (mbs : list Mailbox) : Server :=
  {| dialErr := None; loginErr := None; mailboxes := mbs; listErr := None;
     listArm := ArmResult; logoutErr := None |}.

(** A mailbox with two messages of one message id, the body of the
    second failing to read. *)
Definition twins_broken : list imap.Message :=
  [message 1 "a@x" "Hel" "lo"; message_bad_body 2 "a@x" "par"].

(** A message of an envelope fetch that carries no envelope. *)
Definition message_no_envelope (seq : N) : imap.Message :=
  {| imap.SeqNum := seq; imap.Uid := seq; imap.MsgEnvelope := None;
     imap.Body := ∅ |}.

(** A mailbox whose second message has no envelope. *)
Definition headless : list imap.Message :=
  [message 1 "a@x" "Hel" "lo"; message_no_envelope 2].

(** A file system on which [os.Stat] of the file of ["b@x"] fails. *)
Definition os_stat_denied : OS :=
  {| statFault := fun name =>
       if String.eqb name (@storeName prims "b@x")
       then Some (errorString "permission denied") else None;
     writeFault := fun _ => None |}.

(** A file system that runs full while the file of ["b@x"] is written,
    ten bytes into it. *)
Definition os_disk_full : OS :=
  {| statFault := fun _ => None;
     writeFault := fun name =>
       if String.eqb name (@storeName prims "b@x")
       then Some (WriteFails (errorString "no space left on device") 10)
       else None |}.

(** A XOF with 16 bytes of output, for a key slice of 32. *)
Definition xof16 : blake2b.XOF := @blake2b.NewXOF 16.

(** The inbox, served by a session that sends something else when it is
    asked for any other set than the two messages of the inbox. *)
Definition serve_inbox_only : Session :=
  {| selectErr := None;
     envelopes := {| items := inbox; returned := None |};
     envelopesArm := ArmResult;
     bodies := fun ss =>
       if bool_decide (ss = {[ 1%N; 2%N ]})
       then bodies (serve inbox) ss
       else {| items := twins; returned := Some no_messages |};
     bodiesArm := ArmResult |}.

End Scenario.

(** * Properties *)

(** RFC 4648 test vectors, without the padding characters. *)
Example base32_f : base32.EncodeToString (bytes_of_string "f") = "MY".
Proof. reflexivity. Qed.
Example base32_fo : base32.EncodeToString (bytes_of_string "fo") = "MZXQ".
Proof. reflexivity. Qed.
Example base32_foo : base32.EncodeToString (bytes_of_string "foo") = "MZXW6".
Proof. reflexivity. Qed.
Example base32_foob : base32.EncodeToString (bytes_of_string "foob") = "MZXW6YQ".
Proof. reflexivity. Qed.
Example base32_fooba : base32.EncodeToString (bytes_of_string "fooba") = "MZXW6YTB".
Proof. reflexivity. Qed.
Example base32_foobar : base32.EncodeToString (bytes_of_string "foobar") = "MZXW6YTBOI".
Proof. reflexivity. Qed.

Example FormatInt_0 : FormatInt 0 = "0".
Proof. reflexivity. Qed.
Example FormatInt_1234 : FormatInt 1234 = "1234".
Proof. reflexivity. Qed.
Example Contains_yes : Contains "A3 NO No matching messages (0.001s)" "No matching messages" = true.
Proof. reflexivity. Qed.
Example Contains_no : Contains "connection closed" "No matching messages" = false.
Proof. reflexivity. Qed.

Section FnProperties.
Context `{Primitives}.

Lemma xofOutput_length (m : string) : length (xofOutput m) = keySize.
Proof. unfold xofOutput. by rewrite length_map, length_seq. Qed.

Lemma fn_ok (xof : blake2b.XOF) (key : bytes) (m : string) :
  blake2b.size xof = keySize -> length key = keySize ->
  fn xof key m = (xofAfter m, xofOutput m, Ok (base32.EncodeToString (xofOutput m))).
Proof.
  intros Hsz Hlen. unfold fn, blake2b.Reset, blake2b.Write, blake2b.Read.
  cbn [blake2b.readMode blake2b.size blake2b.data blake2b.remaining].
  rewrite Hsz, Hlen, Nat.min_id, Nat.sub_diag.
  change (Nat.eqb keySize 0) with false. cbn iota.
  rewrite (drop_ge key keySize) by lia. rewrite app_nil_r.
  cbn [app]. fold (xofOutput m). rewrite xofOutput_length, Nat.eqb_refl.
  reflexivity.
Qed.
End FnProperties.

(** ** base32: the text form determines the bytes *)

Module base32_facts.
Import base32.

Lemma byte_of_bits_of_byte (b : byte) : byte_of_bits (bits_of_byte b) = b.
Proof.
  unfold bits_of_byte.
  pose proof (Byte.of_bits_to_bits b) as Hb.
  destruct (Byte.to_bits b) as (b0 & b1 & b2 & b3 & b4 & b5 & b6 & b7).
  exact Hb.
Qed.

Lemma bits_of_byte_length (b : byte) : length (bits_of_byte b) = 8.
Proof.
  unfold bits_of_byte.
  by destruct (Byte.to_bits b) as (b0 & b1 & b2 & b3 & b4 & b5 & b6 & b7).
Qed.

Lemma bits_of_bytes_length (src : bytes) :
  length (bits_of_bytes src) = 8 * length src.
Proof.
  unfold bits_of_bytes. induction src as [|b src IH]; [done|].
  cbn [map concat]. rewrite length_app, bits_of_byte_length, IH. cbn [length]. lia.
Qed.

Lemma bits_of_bytes_inj (s1 s2 : bytes) :
  bits_of_bytes s1 = bits_of_bytes s2 -> s1 = s2.
Proof.
  revert s2. induction s1 as [|b1 s1 IH]; intros [|b2 s2] Heq; try done.
  - apply (f_equal length) in Heq.
    rewrite !bits_of_bytes_length in Heq. cbn [length] in Heq. lia.
  - apply (f_equal length) in Heq.
    rewrite !bits_of_bytes_length in Heq. cbn [length] in Heq. lia.
  - unfold bits_of_bytes in Heq. cbn [map concat] in Heq.
    apply app_inj_1 in Heq as [Hb Hs];
      [|by rewrite !bits_of_byte_length].
    f_equal.
    + by rewrite <- (byte_of_bits_of_byte b1), Hb, byte_of_bits_of_byte.
    + by apply IH.
Qed.

(** Induction over a list five elements at a time. *)
Lemma list_ind5 {A} (P : list A -> Prop) :
  P [] -> (forall a, P [a]) -> (forall a b, P [a; b]) ->
  (forall a b c, P [a; b; c]) -> (forall a b c d, P [a; b; c; d]) ->
  (forall a b c d e l, P l -> P (a :: b :: c :: d :: e :: l)) ->
  forall l, P l.
Proof.
  intros H0 H1 H2 H3 H4 Hstep l.
  cut (P l /\ (forall a, P (a :: l)) /\ (forall a b, P (a :: b :: l)) /\
       (forall a b c, P (a :: b :: c :: l)) /\
       (forall a b c d, P (a :: b :: c :: d :: l))).
  { by intros [? _]. }
  induction l as [|x l (IH0 & IH1 & IH2 & IH3 & IH4)]; [by auto|].
  repeat split; auto.
Qed.

Lemma quintets_length5 (bs : list bool) :
  Forall (fun q => length q = 5) (quintets bs).
Proof.
  induction bs as [|a|a b|a b c|a b c d|a b c d e l IH] using list_ind5;
    cbn [quintets]; repeat constructor. exact IH.
Qed.

(** The groups, put end to end, start with the bits they were cut from. *)
Lemma quintets_take (bs : list bool) :
  take (length bs) (concat (quintets bs)) = bs.
Proof.
  induction bs as [|a|a b|a b c|a b c d|a b c d e l IH] using list_ind5;
    try reflexivity.
  cbn [quintets concat length app take]. by rewrite IH.
Qed.

Lemma quintets_inj (bs1 bs2 : list bool) :
  length bs1 = length bs2 -> quintets bs1 = quintets bs2 -> bs1 = bs2.
Proof.
  intros Hlen Heq.
  by rewrite <- (quintets_take bs1), <- (quintets_take bs2), Hlen, Heq.
Qed.

Lemma symbol_inj (q1 q2 : list bool) :
  length q1 = 5 -> length q2 = 5 -> symbol q1 = symbol q2 -> q1 = q2.
Proof.
  intros H1 H2.
  destruct q1 as [|a1 [|a2 [|a3 [|a4 [|a5 [|]]]]]]; try discriminate H1.
  destruct q2 as [|c1 [|c2 [|c3 [|c4 [|c5 [|]]]]]]; try discriminate H2.
  clear H1 H2.
  destruct a1, a2, a3, a4, a5; destruct c1, c2, c3, c4, c5;
    vm_compute; intros Heq; first [reflexivity | discriminate Heq].
Qed.

Lemma map_symbol_inj (qs1 qs2 : list (list bool)) :
  Forall (fun q => length q = 5) qs1 -> Forall (fun q => length q = 5) qs2 ->
  map symbol qs1 = map symbol qs2 -> qs1 = qs2.
Proof.
  intros Hq1. revert qs2.
  induction Hq1 as [|q1 qs1 Hq1 _ IH]; intros qs2 Hq2 Heq.
  - by destruct qs2.
  - destruct Hq2 as [|q2 qs2 Hq2 Hqs2]; [done|].
    cbn [map] in Heq. injection Heq as Hs Hm.
    f_equal; [by apply symbol_inj | by apply IH].
Qed.

(** Keys of one length with the same text form are the same key. *)
Lemma EncodeToString_inj (k1 k2 : bytes) :
  length k1 = length k2 ->
  EncodeToString k1 = EncodeToString k2 -> k1 = k2.
Proof.
  intros Hlen Heq. unfold EncodeToString in Heq.
  apply (f_equal list_ascii_of_string) in Heq.
  rewrite !list_ascii_of_string_of_list_ascii in Heq.
  apply map_symbol_inj in Heq; [|apply quintets_length5..].
  apply quintets_inj in Heq; [by apply bits_of_bytes_inj|].
  rewrite !bits_of_bytes_length. lia.
Qed.

End base32_facts.

(** ** Key derivation *)

Section KeyProperties.
Context `{Primitives}.

Lemma Derive_xofOutput (m : string) : Derive m = xofOutput m.
Proof. unfold Derive. by rewrite fn_ok. Qed.

Lemma Derive_length (m : string) : length (Derive m) = keySize.
Proof. rewrite Derive_xofOutput. apply xofOutput_length. Qed.

Lemma fn_Derive (xof : blake2b.XOF) (key : bytes) (m : string) :
  blake2b.size xof = keySize -> length key = keySize ->
  fn xof key m = (xofAfter m, Derive m, Ok (storeName m)).
Proof.
  intros Hsz Hlen. unfold storeName. rewrite Derive_xofOutput.
  by apply fn_ok.
Qed.

(** What [Iter] keeps true of [xof] and [key] between the calls of [fn]. *)
Lemma afterCalls_inv (ms : list string) :
  blake2b.size (afterCalls ms).1 = keySize /\ length (afterCalls ms).2 = keySize.
Proof.
  unfold afterCalls.
  induction ms as [|m ms IH] using rev_ind; [done|].
  rewrite fold_left_app. cbn [fold_left].
  destruct IH as [Hsz Hlen]. rewrite (fn_Derive _ _ m Hsz Hlen).
  split; [done | apply Derive_length].
Qed.

(** C8. Key derivation is deterministic: whatever calls of [fn] came
    before (the XOF and the key buffer are shared between the calls), the
    call on a message id [m] leaves the same 32 bytes in [key] and returns
    the same name, the base32 text of those bytes. *)
Theorem fn_deterministic (ms1 ms2 : list string) (m : string) :
  let r1 := fn (afterCalls ms1).1 (afterCalls ms1).2 m in
  let r2 := fn (afterCalls ms2).1 (afterCalls ms2).2 m in
  r1 = r2 /\ r1.1.2 = Derive m /\ length (Derive m) = keySize /\
  r1.2 = Ok (base32.EncodeToString (Derive m)).
Proof.
  destruct (afterCalls_inv ms1) as [Hs1 Hl1].
  destruct (afterCalls_inv ms2) as [Hs2 Hl2].
  cbn zeta. rewrite (fn_Derive _ _ m Hs1 Hl1), (fn_Derive _ _ m Hs2 Hl2).
  split; [done|]. split; [done|]. split; [apply Derive_length | done].
Qed.

(** C9, as amended. Key derivation adds no collision of its own: two
    message ids get the same key, and the same file name, exactly when the
    XOF gives them the same 32 bytes; ids the XOF tells apart get distinct
    keys and distinct names. *)
Theorem Derive_distinct_iff_xof (m1 m2 : string) :
  (Derive m1 = Derive m2 <-> xofOutput m1 = xofOutput m2) /\
  (storeName m1 = storeName m2 <-> xofOutput m1 = xofOutput m2) /\
  (xofOutput m1 <> xofOutput m2 ->
   Derive m1 <> Derive m2 /\ storeName m1 <> storeName m2).
Proof.
  assert (Hname : storeName m1 = storeName m2 <-> xofOutput m1 = xofOutput m2).
  { unfold storeName. rewrite !Derive_xofOutput. split.
    - apply base32_facts.EncodeToString_inj. by rewrite !xofOutput_length.
    - by intros ->. }
  rewrite !Derive_xofOutput. split; [done|]. split; [done|].
  intros Hne. split; [done|]. by rewrite Hname.
Qed.

End KeyProperties.

(** ** No derivation into 32 bytes is injective *)

Section Pigeonhole.

Lemma bounded_search (P : N -> Prop) (M : N) :
  (forall i, Decision (P i)) ->
  (exists i, (i <= M)%N /\ P i) \/ (forall i, (i <= M)%N -> ~ P i).
Proof.
  intros Hdec. induction M as [|M IH] using N.peano_ind.
  - destruct (Hdec 0%N) as [H0|H0].
    + left. exists 0%N. split; [lia | done].
    + right. intros i Hi. by replace i with 0%N by lia.
  - destruct IH as [(i & Hi & HP)|Hnone].
    + left. exists i. split; [lia | done].
    + destruct (Hdec (N.succ M)) as [HS|HS].
      * left. exists (N.succ M). split; [lia | done].
      * right. intros i Hi. destruct (decide (i = N.succ M)) as [->|Hne]; [done|].
        apply Hnone. lia.
Qed.

(** [M + 1] values below [M] are not all distinct. *)
Lemma pigeonhole_N (M : N) (f : N -> N) :
  (forall i, (i <= M)%N -> (f i < M)%N) ->
  exists i j, (i < j)%N /\ (j <= M)%N /\ f i = f j.
Proof.
  revert f. induction M as [|M IH] using N.peano_ind; intros f Hf.
  - specialize (Hf 0%N). lia.
  - destruct (bounded_search (fun i => f i = f (N.succ M)) M)
      as [(i & Hi & Heq)|Hnone]; [intros i; apply _ | |].
    + exists i, (N.succ M). repeat split; [lia | lia | done].
    + set (v := f (N.succ M)).
      destruct (IH (fun i => if (f i <? v)%N then f i else (f i - 1)%N))
        as (i & j & Hij & Hj & Heq).
      * intros i Hi. specialize (Hnone i Hi). fold v in Hnone.
        pose proof (Hf i ltac:(lia)). pose proof (Hf (N.succ M) ltac:(lia)).
        fold v in H0. destruct (N.ltb_spec (f i) v); lia.
      * exists i, j. repeat split; [lia | lia |].
        pose proof (Hnone i ltac:(lia)) as Hi'. pose proof (Hnone j Hj) as Hj'.
        fold v in Hi', Hj'. cbn beta in Heq.
        destruct (N.ltb_spec (f i) v), (N.ltb_spec (f j) v); lia.
Qed.

Lemma N_of_bytes_bound (l : bytes) : (N_of_bytes l < 256 ^ N.of_nat (length l))%N.
Proof.
  induction l as [|b l IH]; [done|].
  cbn [N_of_bytes fold_right length]. fold (N_of_bytes l).
  rewrite Nat2N.inj_succ, N.pow_succ_r'.
  pose proof (Byte.to_N_bounded b). lia.
Qed.

Lemma N_of_bytes_inj (l1 l2 : bytes) :
  length l1 = length l2 -> N_of_bytes l1 = N_of_bytes l2 -> l1 = l2.
Proof.
  revert l2. induction l1 as [|b1 l1 IH]; intros [|b2 l2] Hlen Heq; try done.
  cbn [N_of_bytes fold_right] in Heq. fold (N_of_bytes l1) (N_of_bytes l2) in Heq.
  pose proof (Byte.to_N_bounded b1). pose proof (Byte.to_N_bounded b2).
  assert (Hb : Byte.to_N b1 = Byte.to_N b2) by lia.
  assert (Hl : N_of_bytes l1 = N_of_bytes l2) by lia.
  f_equal.
  - apply (inj Some). by rewrite <- !Byte.of_to_N, Hb.
  - apply IH; [by injection Hlen | done].
Qed.

Lemma msgID_of_N_inj (n1 n2 : N) : msgID_of_N n1 = msgID_of_N n2 -> n1 = n2.
Proof.
  assert (Hnn : forall n, N.to_uint n <> Decimal.Nil).
  { intros [|p]; [done | apply DecimalPos.Unsigned.to_uint_nonnil]. }
  unfold msgID_of_N. intros Heq.
  apply (f_equal NilZero.uint_of_string) in Heq.
  rewrite !NilZero.usu in Heq by apply Hnn. injection Heq as Heq.
  by rewrite <- (DecimalN.Unsigned.of_to n1), Heq, DecimalN.Unsigned.of_to.
Qed.

End Pigeonhole.

(** C9, refuted. For no choice of the primitives is the derivation
    injective: there are more message ids than 32-byte keys. *)
Lemma Derive_not_injective :
  ~ exists P : Primitives,
      forall m1 m2 : string, m1 <> m2 -> @Derive P m1 <> @Derive P m2.
Proof.
  intros [P Hinj].
  destruct (pigeonhole_N (256 ^ N.of_nat keySize)
              (fun n => N_of_bytes (Derive (msgID_of_N n))))
    as (i & j & Hij & _ & Heq).
  { intros i _. pose proof (N_of_bytes_bound (Derive (msgID_of_N i))) as Hb.
    by rewrite Derive_length in Hb. }
  apply N_of_bytes_inj in Heq; [|by rewrite !Derive_length].
  apply (Hinj (msgID_of_N i) (msgID_of_N j)); [|done].
  intros Hm. apply msgID_of_N_inj in Hm. lia.
Qed.

(** ** The second loop: what is written, and when *)

Lemma log_store w σ f v : store (log w σ f v) = store σ.
Proof. unfold log. by destruct (negb (Verbose w)). Qed.

Lemma log_trace w σ f v : trace (log w σ f v) = trace σ.
Proof. unfold log. by destruct (negb (Verbose w)). Qed.

(** Logging leaves the store and the trace alone. *)
Ltac log_frame := cbn [fst snd]; rewrite ?log_store, ?log_trace.

Section PersistProperties.
Context `{Primitives}.

Lemma tee_copy_spec (cs : list bytes) (bodyBuf : bytes) (h : blake2b.Hash) :
  tee_copy cs bodyBuf h =
  (bodyBuf ++ concat cs, {| blake2b.written := blake2b.written h ++ concat cs |}).
Proof.
  revert bodyBuf h. induction cs as [|c cs IH]; intros bodyBuf h.
  - cbn. rewrite !app_nil_r. by destruct h.
  - cbn [tee_copy concat]. rewrite IH. cbn. by rewrite !app_assoc.
Qed.

(** One turn of the second loop, with [fn] and the copy worked out. *)
Lemma persist_unfold os mi l msg σ :
  wf_locals l ->
  persist os mi l msg σ =
  match imap.MsgEnvelope msg with
  | None => (σ, Panic nil_deref)
  | Some envelope =>
    match imap.GetBody msg secName with
    | None => (σ, Panic nil_deref)
    | Some lit =>
      let body := concat (imap.chunks lit) in
      match imap.readErr lit with
      | Some _ => (σ, Err (errorString "hash body"))
      | None =>
        match json_Encode (header_for mi envelope body) with
        | Panic m => (σ, Panic m)
        | Err err => (σ, Err (Errorf_w "marshal header: " err))
        | Ok block =>
          let buf := block ++ headerSep ++ body in
          match os_WriteFile os σ (storeName (imap.MessageId envelope)) buf with
          | (σ', Some err) => (σ', Err (Errorf_w "write: " err))
          | (σ', None) => (σ', Ok (locals_after envelope buf body))
          end
        end
      end
    end
  end.
Proof.
  intros [Hsz Hlen]. unfold persist.
  destruct (imap.MsgEnvelope msg) as [envelope|]; [|done].
  rewrite (fn_Derive _ _ _ Hsz Hlen).
  destruct (imap.GetBody msg secName) as [lit|]; [|done].
  rewrite tee_copy_spec. cbn [app blake2b.Hash_Reset blake2b.written].
  destruct (imap.readErr lit); [done|].
  unfold header_for.
  destruct (json_Encode _) as [block|err|m]; try done.
  by rewrite <- app_assoc.
Qed.

Lemma locals_after_wf envelope buf body : wf_locals (locals_after envelope buf body).
Proof. split; [done | apply Derive_length]. Qed.

Lemma header_for_RoundTrip mi envelope body block :
  json_Encode (header_for mi envelope body) = Ok block ->
  RoundTrip (block ++ headerSep ++ body) (header_for mi envelope body) body.
Proof. intros Hj. exists block. by repeat split. Qed.

(** A turn that returns without an error wrote one file, in full, the
    record of its message; the file is in the store under its name. *)
Lemma persist_Ok os mi l msg σ σ' l' :
  wf_locals l -> persist os mi l msg σ = (σ', Ok l') ->
  wf_locals l' /\
  exists ev, trace σ' = trace σ ++ [ev] /\ record_of msg ev /\
    exists data, ev = EvWrite (ev_name ev) data /\
                 store σ' = <[ev_name ev := data]> (store σ).
Proof.
  intros Hwf. rewrite persist_unfold by done.
  destruct (imap.MsgEnvelope msg) as [envelope|] eqn:Henv; [|done].
  destruct (imap.GetBody msg secName) as [lit|] eqn:Hbody; [|done].
  cbn zeta. destruct (imap.readErr lit) eqn:Hread; [done|].
  destruct (json_Encode _) as [block|err|m] eqn:Hjson; try done.
  unfold os_WriteFile.
  destruct (writeFault os _) as [[e|e n]|]; try done.
  intros [= <- <-]. split; [apply locals_after_wf|].
  eexists. split; [done|]. split.
  - exists envelope, lit, (header_for mi envelope (concat (imap.chunks lit))).
    do 2 eexists. repeat split; try done.
    by apply header_for_RoundTrip.
  - by eexists.
Qed.

(** A turn that does not return [Ok] wrote no file in full: it left the
    world as it was, or left a part of the file when the write failed. *)
Lemma persist_not_Ok os mi l msg σ σ' r :
  wf_locals l ->
  persist os mi l msg σ = (σ', r) ->
  (forall l', r <> Ok l') ->
  σ' = σ \/
  exists name data e n,
    msgName msg = Some name /\
    writeFault os name = Some (WriteFails e n) /\
    trace σ' = trace σ ++ [EvShortWrite name data] /\
    store σ' = <[name := data]> (store σ).
Proof.
  intros Hwf. rewrite persist_unfold by done. unfold msgName.
  destruct (imap.MsgEnvelope msg) as [envelope|] eqn:Henv;
    [|intros [= <- <-]; by left].
  destruct (imap.GetBody msg secName) as [lit|] eqn:Hbody;
    [|intros [= <- <-]; by left].
  cbn zeta. destruct (imap.readErr lit) eqn:Hread;
    [intros [= <- <-]; by left|].
  destruct (json_Encode _) as [block|err|m] eqn:Hjson;
    try (intros [= <- <-]; by left).
  unfold os_WriteFile.
  destruct (writeFault os _) as [[e|e n]|] eqn:Hw; intros [= <- <-] Hno.
  - by left.
  - right. by do 4 eexists.
  - by destruct (Hno (locals_after envelope
                        (block ++ headerSep ++ concat (imap.chunks lit))
                        (concat (imap.chunks lit)))).
Qed.

Lemma record_of_msgName msg ev : record_of msg ev -> msgName msg = Some (ev_name ev).
Proof.
  intros (en & lit & h & name & dt & -> & Hen & _ & _ & -> & _).
  unfold msgName. by rewrite Hen.
Qed.

(** The second loop appends events to the trace; they are all that
    happens to the store, each is in order, and they are named after the
    messages in the order of the stream, one event a message. *)
Lemma fetchLoop_events os mi l msgs σ :
  wf_locals l ->
  exists evs, trace (fetchLoop os mi l msgs σ).1 = trace σ ++ evs /\
              store (fetchLoop os mi l msgs σ).1 = replay evs (store σ) /\
              Forall (event_ok msgs) evs /\
              (Some ∘ ev_name <$> evs) `prefix_of` (msgName <$> msgs).
Proof.
  revert l σ. induction msgs as [|msg msgs IH]; intros l σ Hwf.
  - exists []. by rewrite app_nil_r.
  - cbn [fetchLoop].
    destruct (persist os mi l msg σ) as [σ1 [l1|e|m]] eqn:Hp.
    + destruct (persist_Ok _ _ _ _ _ _ _ Hwf Hp)
        as (Hwf1 & ev & Htr & Hrec & data & Hev & Hst).
      destruct (IH l1 σ1 Hwf1) as (evs & Htr' & Hst' & Hok & Hpre).
      exists (ev :: evs). split; [|split; [|split]].
      * rewrite Htr', Htr. by rewrite <- app_assoc.
      * rewrite Hst', Hst. cbn [replay fold_left]. by rewrite Hev at 3.
      * constructor.
        -- destruct Hrec as (en & lit & h & name & dt & -> & Hrest). cbn.
           exists msg. split; [left|]. by exists en, lit, h, name, dt.
        -- eapply Forall_impl; [exact Hok|].
           intros [] Hev'; [|done]. destruct Hev' as (m' & Hin & Hr).
           exists m'. split; [by right | done].
      * cbn [fmap list_fmap]. rewrite (record_of_msgName _ _ Hrec).
        by apply prefix_cons.
    + destruct (persist_not_Ok _ _ _ _ _ _ _ Hwf Hp) as [->|Hshort]; [done|..].
      * exists []. rewrite app_nil_r. repeat split; [done|apply prefix_nil].
      * destruct Hshort as (name & data & ? & ? & Hn & _ & Htr & Hst).
        exists [EvShortWrite name data]. repeat split; [done..|by repeat constructor|].
        cbn [fmap list_fmap]. rewrite Hn. apply prefix_cons, prefix_nil.
    + destruct (persist_not_Ok _ _ _ _ _ _ _ Hwf Hp) as [->|Hshort]; [done|..].
      * exists []. rewrite app_nil_r. repeat split; [done|apply prefix_nil].
      * destruct Hshort as (name & data & ? & ? & Hn & _ & Htr & Hst).
        exists [EvShortWrite name data]. repeat split; [done..|by repeat constructor|].
        cbn [fmap list_fmap]. rewrite Hn. apply prefix_cons, prefix_nil.
Qed.

End PersistProperties.

(** ** The first loop: what is pending *)

Section ScanProperties.
Context `{Primitives}.

Lemma os_Stat_reliable os st name :
  stat_reliable os ->
  os_Stat os st name =
  match st !! name with
  | Some _ => None
  | None => Some (wrapError ("stat " +:+ name +:+ ": no such file or directory")
                            os_ErrNotExist)
  end.
Proof. intros Hrel. unfold os_Stat. by rewrite Hrel. Qed.

(** With a reliable [os.Stat] and an envelope on every message the first
    loop ends: it has counted the archived messages and collected the
    sequence numbers of the others, in order. *)
Lemma scan_reliable os st xof key msgs n ml :
  stat_reliable os ->
  blake2b.size xof = keySize -> length key = keySize ->
  Forall has_envelope msgs ->
  exists xof' key',
    blake2b.size xof' = keySize /\ length key' = keySize /\
    scan os st xof key msgs n ml =
    Ok (xof', key', n + length (filter (archived st) msgs),
        ml ++ (imap.SeqNum <$> filter (fun m => ~ archived st m) msgs)).
Proof.
  intros Hrel Hsz Hlen Henv. revert xof key n ml Hsz Hlen.
  induction Henv as [|msg msgs [envelope Hm] _ IH]; intros xof key n ml Hsz Hlen.
  - exists xof, key. cbn. by rewrite Nat.add_0_r, app_nil_r.
  - cbn [scan]. rewrite Hm, (fn_Derive _ _ _ Hsz Hlen).
    rewrite (os_Stat_reliable _ _ _ Hrel).
    rewrite !filter_cons.
    destruct (st !! storeName (imap.MessageId envelope)) as [d|] eqn:Hst.
    + destruct (IH (xofAfter (imap.MessageId envelope))
                   (Derive (imap.MessageId envelope)) (S n) ml)
        as (xof' & key' & Hs' & Hl' & ->); [done | apply Derive_length |].
      exists xof', key'. split; [done|]. split; [done|].
      rewrite decide_True by (unfold archived; rewrite Hm, Hst; by eexists).
      rewrite decide_False
        by (intros Hn; apply Hn; unfold archived; rewrite Hm, Hst; by eexists).
      cbn [length]. do 3 f_equal. lia.
    + cbn [os_IsNotExist os_ErrNotExist]. rewrite bool_decide_eq_true_2 by done.
      destruct (IH (xofAfter (imap.MessageId envelope))
                   (Derive (imap.MessageId envelope)) n (ml ++ [imap.SeqNum msg]))
        as (xof' & key' & Hs' & Hl' & ->); [done | apply Derive_length |].
      exists xof', key'. split; [done|]. split; [done|].
      assert (Hna : ~ archived st msg).
      { unfold archived. rewrite Hm, Hst. by intros [? ?]. }
      rewrite decide_False by done. rewrite decide_True by done.
      cbn [fmap list_fmap]. by rewrite <- app_assoc.
Qed.

Lemma filter_all {A} (P : A -> Prop) `{forall x, Decision (P x)} (l : list A) :
  Forall P l -> filter P l = l /\ filter (fun x => ~ P x) l = [].
Proof.
  induction 1 as [|x l Hx _ [IH1 IH2]]; [done|].
  rewrite !filter_cons, decide_True, decide_False by tauto.
  by rewrite IH1, IH2.
Qed.

End ScanProperties.

(** ** One mailbox *)

Section IterProperties.
Context `{Primitives}.

Lemma NewXOF_size : blake2b.size (blake2b.NewXOF keySize) = keySize.
Proof. done. Qed.

Lemma zero_key_length : length (replicate keySize Byte.x00) = keySize.
Proof. apply length_replicate. Qed.


(** C2, as amended. When the envelope fetch of a mailbox ends with the
    server saying that no messages match, and this result rather than a
    cancellation is what the wait observes after a scan that went
    through, [Iter] returns nil and has written no file. *)
Theorem Iter_no_matching_messages w os c mi σ err :
  selectErr c = None ->
  stat_reliable os ->
  Forall has_envelope (items (envelopes c)) ->
  envelopesArm c = ArmResult ->
  returned (envelopes c) = Some err ->
  Contains (Error err) "No matching messages" = true ->
  let σ' := (Iter w os c mi σ).1 in
  (Iter w os c mi σ).2 = Ok () /\ store σ' = store σ /\ trace σ' = trace σ.
Proof.
  intros Hsel Hrel Henv Harm Hret Hnmm.
  destruct (scan_reliable os (store σ) _ _ _ 0 [] Hrel NewXOF_size
              zero_key_length Henv) as (xof & key & _ & _ & Hscan).
  cbn zeta. unfold Iter. rewrite Hsel, log_store, Hscan, Harm, Hret, Hnmm.
  cbn [fst snd]. by rewrite !log_store, !log_trace.
Qed.

End IterProperties.

Section LoopProperties.
Context `{Primitives}.

Lemma scan_wf os st xof key msgs n ml xof' key' n' ml' :
  blake2b.size xof = keySize -> length key = keySize ->
  scan os st xof key msgs n ml = Ok (xof', key', n', ml') ->
  blake2b.size xof' = keySize /\ length key' = keySize.
Proof.
  revert xof key n ml. induction msgs as [|msg msgs IH]; intros xof key n ml Hsz Hlen.
  - by intros [= <- <- _ _].
  - cbn [scan]. destruct (imap.MsgEnvelope msg) as [envelope|]; [|done].
    rewrite (fn_Derive _ _ _ Hsz Hlen).
    destruct (os_Stat os st _) as [err|].
    + destruct (os_IsNotExist err); [|done].
      apply IH; [done | apply Derive_length].
    + apply IH; [done | apply Derive_length].
Qed.

Lemma fetchLoop_app os mi l pre post σ :
  fetchLoop os mi l (pre ++ post) σ =
  match fetchLoop os mi l pre σ with
  | (σ1, Ok l1) => fetchLoop os mi l1 post σ1
  | r => r
  end.
Proof.
  revert l σ. induction pre as [|msg pre IH]; intros l σ; [done|].
  cbn [app fetchLoop].
  destruct (persist os mi l msg σ) as [σ1 [l1|e|m]]; [apply IH | done | done].
Qed.

Lemma fetchLoop_wf os mi l msgs σ σ1 l1 :
  wf_locals l -> fetchLoop os mi l msgs σ = (σ1, Ok l1) -> wf_locals l1.
Proof.
  revert l σ. induction msgs as [|msg msgs IH]; intros l σ Hwf.
  - by intros [= _ <-].
  - cbn [fetchLoop].
    destruct (persist os mi l msg σ) as [σ2 [l2|e|m]] eqn:Hp; [|done..].
    apply IH. by destruct (persist_Ok _ _ _ _ _ _ _ Hwf Hp).
Qed.

Lemma world_at_fetch_frame w mi σ n ml :
  store (world_at_fetch w mi σ n ml) = store σ /\
  trace (world_at_fetch w mi σ n ml) = trace σ.
Proof. unfold world_at_fetch. by rewrite !log_store, !log_trace. Qed.

(** [Iter] leaves the store and the trace as they are, or it went
    through the scan with something pending and they are as its second
    loop leaves them. *)
Lemma Iter_effects w os c mi σ :
  (store (Iter w os c mi σ).1 = store σ /\ trace (Iter w os c mi σ).1 = trace σ) \/
  exists xof key n msgList σ0,
    scan os (store σ) (blake2b.NewXOF keySize) (replicate keySize Byte.x00)
         (items (envelopes c)) 0 [] = Ok (xof, key, n, msgList) /\
    msgList <> [] /\ wf_locals (locals_init xof key) /\
    store σ0 = store σ /\ trace σ0 = trace σ /\
    let fl := fetchLoop os mi (locals_init xof key)
                (items (bodies c (list_to_set msgList))) σ0 in
    store (Iter w os c mi σ).1 = store fl.1 /\
    trace (Iter w os c mi σ).1 = trace fl.1.
Proof.
  unfold Iter.
  destruct (selectErr c); [left; by log_frame|].
  rewrite log_store.
  destruct (scan _ _ _ _ _ _ _) as [[[[xof key] n] msgList]|e|m] eqn:Hscan;
    try (left; by log_frame).
  destruct (envelopesArm c); [left; by log_frame|].
  destruct (returned (envelopes c)) as [err|].
  { destruct (Contains _ _); left; by log_frame. }
  destruct msgList as [|sn msgList].
  { left. cbn [length Nat.eqb]. by log_frame. }
  right. cbn [length Nat.eqb].
  exists xof, key, n, (sn :: msgList), (world_at_fetch w mi σ n (sn :: msgList)).
  split; [done|]. split; [done|]. split.
  { apply (scan_wf _ _ _ _ _ _ _ _ _ _ _ NewXOF_size zero_key_length Hscan). }
  destruct (world_at_fetch_frame w mi σ n (sn :: msgList)) as [Hs0 Ht0].
  split; [done|]. split; [done|].
  cbn zeta. fold (locals_init xof key).
  fold (world_at_fetch w mi σ n (sn :: msgList)).
  destruct (fetchLoop _ _ _ _ _) as [σ1 [l1|e|m]]; [|done..].
  destruct (bodiesArm c); [done|].
  destruct (returned _); [done|]. by log_frame.
Qed.

(** The events of [Iter]: they are all that happens to the store, and a
    file written in full is the record of a message of the body fetch. *)
Lemma Iter_events w os c mi σ :
  exists evs,
    trace (Iter w os c mi σ).1 = trace σ ++ evs /\
    store (Iter w os c mi σ).1 = replay evs (store σ) /\
    Forall (fun ev => exists ss, event_ok (items (bodies c ss)) ev) evs.
Proof.
  destruct (Iter_effects w os c mi σ)
    as [[Hst Htr]|(xof & key & n & msgList & σ0 & _ & _ & Hwf & Hst0 & Htr0 & Hfl)].
  - exists []. rewrite app_nil_r. by repeat split.
  - cbn zeta in Hfl. destruct Hfl as [-> ->].
    destruct (fetchLoop_events os mi (locals_init xof key)
                (items (bodies c (list_to_set msgList))) σ0 Hwf)
      as (evs & Htr & Hst & Hok & _).
    exists evs. rewrite Htr, Hst, Hst0, Htr0. repeat split.
    eapply Forall_impl; [exact Hok|]. intros ev Hev. by eexists.
Qed.

(** C3, as the code has it. The header [Iter] builds for a message never
    carries the in-reply-to value of its envelope: the field [InReplyTo]
    is the empty string whatever the envelope says. *)
Theorem header_of_InReplyTo_empty mi name envelope bodyBuf bodyHasher :
  InReplyTo (header_of mi name envelope bodyBuf bodyHasher) = "".
Proof. reflexivity. Qed.

(** C10. A message of the body fetch without the requested body section
    makes the loop panic on the nil reader; no error is returned and
    nothing is written for it. *)
Theorem fetchLoop_nil_body_panics os mi l pre msg post σ σ1 l1 :
  wf_locals l ->
  fetchLoop os mi l pre σ = (σ1, Ok l1) ->
  imap.GetBody msg secName = None ->
  fetchLoop os mi l (pre ++ msg :: post) σ = (σ1, Panic nil_deref).
Proof.
  intros Hwf Hpre Hbody. rewrite fetchLoop_app, Hpre. cbn [fetchLoop].
  rewrite persist_unfold by (by eapply fetchLoop_wf).
  rewrite Hbody. by destruct (imap.MsgEnvelope msg).
Qed.

End LoopProperties.

(** ** The run *)

Section RunProperties.
Context `{Primitives}.

Lemma replay_app evs1 evs2 st : replay (evs1 ++ evs2) st = replay evs2 (replay evs1 st).
Proof. unfold replay. apply fold_left_app. Qed.

Lemma replay_lookup_notin evs (st : Dir) name :
  name ∉ ev_name <$> evs -> replay evs st !! name = st !! name.
Proof.
  revert st. induction evs as [|ev evs IH]; intros st Hn; [done|].
  cbn [replay fold_left]. fold (replay evs (<[ev_name ev:=ev_data ev]> st)).
  rewrite fmap_cons, not_elem_of_cons in Hn. destruct Hn as [Hne Hn].
  rewrite IH by done. by rewrite lookup_insert_ne.
Qed.

Lemma replay_lookup_in evs (st : Dir) name :
  name ∈ ev_name <$> evs -> is_Some (replay evs st !! name).
Proof.
  revert st. induction evs as [|ev evs IH]; intros st Hin.
  - by apply elem_of_nil in Hin.
  - cbn [replay fold_left]. fold (replay evs (<[ev_name ev:=ev_data ev]> st)).
    destruct (decide (name ∈ ev_name <$> evs)) as [Hin'|Hnin]; [by apply IH|].
    rewrite replay_lookup_notin by done.
    rewrite fmap_cons, elem_of_cons in Hin. destruct Hin as [->|]; [|done].
    rewrite lookup_insert_eq. by eexists.
Qed.

Lemma replay_lookup_Some evs (st : Dir) name :
  is_Some (st !! name) -> is_Some (replay evs st !! name).
Proof.
  intros Hs. destruct (decide (name ∈ ev_name <$> evs)) as [Hin|Hnin].
  - by apply replay_lookup_in.
  - by rewrite replay_lookup_notin.
Qed.

Lemma persist_persistable os mi l msg σ :
  wf_locals l -> persistable os mi msg ->
  exists σ' l', persist os mi l msg σ = (σ', Ok l').
Proof.
  intros Hwf (envelope & lit & block & Hen & Hb & Hr & Hj & Hw).
  rewrite persist_unfold by done. rewrite Hen, Hb. cbn zeta. rewrite Hr, Hj.
  unfold os_WriteFile. rewrite Hw. by do 2 eexists.
Qed.

(** Messages that all go through are all written, one record each, in
    the order of the stream. *)
Lemma fetchLoop_persistable os mi l msgs σ :
  wf_locals l -> Forall (persistable os mi) msgs ->
  exists σ' l' evs,
    fetchLoop os mi l msgs σ = (σ', Ok l') /\ wf_locals l' /\
    trace σ' = trace σ ++ evs /\ store σ' = replay evs (store σ) /\
    Forall2 record_of msgs evs.
Proof.
  intros Hwf Hall. revert l σ Hwf.
  induction Hall as [|msg msgs Hmsg _ IH]; intros l σ Hwf.
  - exists σ, l, []. rewrite app_nil_r. do 4 (split; [done|]). constructor.
  - cbn [fetchLoop].
    destruct (persist_persistable os mi l msg σ Hwf Hmsg) as (σ1 & l1 & Hp).
    rewrite Hp.
    destruct (persist_Ok _ _ _ _ _ _ _ Hwf Hp)
      as (Hwf1 & ev & Htr & Hrec & data & Hev & Hst).
    destruct (IH l1 σ1 Hwf1) as (σ' & l' & evs & -> & Hwf' & Htr' & Hst' & Hrecs).
    exists σ', l', (ev :: evs). split; [done|]. split; [done|]. split; [|split].
    + rewrite Htr', Htr. by rewrite <- app_assoc.
    + rewrite Hst', Hst. cbn [replay fold_left]. by rewrite Hev at 3.
    + by constructor.
Qed.

Lemma iterAll_app w os mbs1 mbs2 σ :
  iterAll w os (mbs1 ++ mbs2) σ =
  match iterAll w os mbs1 σ with
  | (σ1, Ok _) => iterAll w os mbs2 σ1
  | r => r
  end.
Proof.
  revert σ. induction mbs1 as [|mb mbs1 IH]; intros σ; [done|].
  cbn [app iterAll]. destruct (mb_ctxErr mb); [done|].
  destruct (Iter w os _ _ σ) as [σ1 [[]|e|m]]; [apply IH | done | done].
Qed.




(** C5. The key of a message, and so the name of its file, is a function
    of its message id alone.  Of two messages with the same message id,
    in whatever mailboxes and whatever else they carry: [fn] derives the
    same 32-byte key for both; once the first has been persisted, under
    the name of that key, the scan of any mailbox counts the second as
    existing and leaves it out of the pending set; and whenever the second
    is persisted it is written under that same name. *)
Theorem storeKey_of_MessageId_alone os miA miB la a b ea eb σ σ' la' xof key n ml :
  imap.MsgEnvelope a = Some ea ->
  imap.MsgEnvelope b = Some eb ->
  imap.MessageId ea = imap.MessageId eb ->
  wf_locals la ->
  blake2b.size xof = keySize -> length key = keySize ->
  stat_reliable os ->
  persist os miA la a σ = (σ', Ok la') ->
  (fn (l_xof la) (l_key la) (imap.MessageId ea)).1.2 = Derive (imap.MessageId eb) /\
  (fn xof key (imap.MessageId eb)).1.2 = Derive (imap.MessageId eb) /\
  (exists data,
     trace σ' = trace σ ++ [EvWrite (storeName (imap.MessageId eb)) data] /\
     store σ' !! storeName (imap.MessageId eb) = Some data) /\
  (exists xof' key',
     scan os (store σ') xof key [b] n ml = Ok (xof', key', S n, ml)) /\
  (forall lb σb σb' lb',
     wf_locals lb -> persist os miB lb b σb = (σb', Ok lb') ->
     exists data',
       trace σb' = trace σb ++ [EvWrite (storeName (imap.MessageId ea)) data']).
Proof.
  intros Ha Hb Hid Hwf Hsz Hlen Hrel Hp.
  destruct (persist_Ok _ _ _ _ _ _ _ Hwf Hp)
    as (_ & ev & Htr & Hrec & data & Hev & Hst).
  pose proof (record_of_msgName _ _ Hrec) as Hname.
  unfold msgName in Hname. rewrite Ha in Hname. injection Hname as Hname.
  rewrite Hid in Hname.
  assert (Hin : store σ' !! storeName (imap.MessageId eb) = Some data).
  { rewrite Hst, <- Hname. apply lookup_insert_eq. }
  destruct Hwf as [Hsa Hla].
  rewrite Hid, (fn_Derive _ _ _ Hsa Hla), (fn_Derive _ _ _ Hsz Hlen).
  split; [done|]. split; [done|]. split; [|split].
  - exists data. split; [|done]. by rewrite Htr, Hev, <- Hname.
  - cbn [scan]. rewrite Hb, (fn_Derive _ _ _ Hsz Hlen).
    rewrite (os_Stat_reliable _ _ _ Hrel), Hin. by do 2 eexists.
  - intros lb σb σb' lb' Hwfb Hpb.
    destruct (persist_Ok _ _ _ _ _ _ _ Hwfb Hpb)
      as (_ & evb & Htrb & Hrecb & datab & Hevb & _).
    pose proof (record_of_msgName _ _ Hrecb) as Hnb.
    unfold msgName in Hnb. rewrite Hb in Hnb. injection Hnb as Hnb.
    exists datab. by rewrite Htrb, Hevb, <- Hnb.
Qed.

Lemma Forall2_record_of_names msgs evs :
  Forall2 record_of msgs evs -> msgName <$> msgs = Some ∘ ev_name <$> evs.
Proof.
  induction 1 as [|msg ev msgs evs Hrec _ IH]; [done|].
  cbn [fmap list_fmap]. rewrite (record_of_msgName _ _ Hrec). by f_equal.
Qed.

(** The scan of [Iter] under a reliable [os.Stat]. *)
Lemma Iter_scan_reliable os (c : Session) (st : Dir) :
  stat_reliable os -> Forall has_envelope (items (envelopes c)) ->
  exists xof key n,
    wf_locals (locals_init xof key) /\
    scan os st (blake2b.NewXOF keySize) (replicate keySize Byte.x00)
         (items (envelopes c)) 0 [] = Ok (xof, key, n, pendingOf st c).
Proof.
  intros Hrel Henv.
  destruct (scan_reliable os st _ _ _ 0 [] Hrel NewXOF_size zero_key_length Henv)
    as (xof & key & Hs & Hl & Hscan).
  exists xof, key. eexists. split; [done|]. exact Hscan.
Qed.

(** C6, as amended. When a stream of a mailbox fails partway (the envelope fetch or
    the body fetch ends with a protocol error, or the body of a message
    fails to read), [List] returns the error wrapped; what the run has
    written for the mailbox are the full records of the messages that went
    through before the failure, and nothing else: there is no write, full
    or partial, for the message being processed at the failure, so no
    file of its key exists unless one was there before its turn. *)
Theorem List_stream_failure w os srv server σ done mb rest σ1 f :
  dialErr srv = None -> loginErr srv = None -> listErr srv = None ->
  mailboxes srv = done ++ mb :: rest ->
  iterAll w os done σ = (σ1, Ok ()) ->
  mb_ctxErr mb = None ->
  selectErr (mb_session mb) = None ->
  stat_reliable os ->
  Forall has_envelope (items (envelopes (mb_session mb))) ->
  fails os (mb_info mb) (mb_session mb) (store σ1) f ->
  exists σ' evs,
    List w os srv server σ = (σ', Err (Errorf_w "iter: " (failure_error f))) /\
    trace σ' = trace σ1 ++ evs /\
    store σ' = replay evs (store σ1) /\
    Forall2 record_of (persisted_before (mb_session mb) (store σ1) f) evs /\
    (forall msg name,
       in_flight f = Some msg -> msgName msg = Some name ->
       store σ1 !! name = None ->
       Some name ∉ msgName <$> persisted_before (mb_session mb) (store σ1) f ->
       store σ' !! name = None).
Proof.
  intros Hdial Hlogin Hlist Hmbs Hdone Hctx Hsel Hrel Henv [Harm Hf].
  set (c := mb_session mb) in *. set (mi := mb_info mb) in *.
  destruct (Iter_scan_reliable os c (store σ1) Hrel Henv)
    as (xof & key & n & Hwf & Hscan).
  assert (Hlist' : forall r : World * result unit,
             (forall σ' u, r <> (σ', Ok u)) ->
             iterAll w os (mb :: rest) σ1 = r ->
             List w os srv server σ = r).
  { intros r Hr Hit. unfold List. rewrite Hdial, Hlogin, Hlist, Hmbs, iterAll_app, Hdone.
    rewrite Hit. destruct r as [σr [u|e|m]]; [by destruct (Hr σr u) | |];
      by destruct (listArm srv). }
  assert (Hiter : forall σ' e,
             Iter w os c mi σ1 = (σ', Err e) ->
             List w os srv server σ = (σ', Err (Errorf_w "iter: " e))).
  { intros σ' e Hi. apply Hlist'; [done|].
    cbn [iterAll]. fold c mi. by rewrite Hctx, Hi. }
  destruct f as [err|err|pre msg post]; cbn [fails] in Hf.
  - destruct Hf as [Hret Hnmm].
    exists (log w σ1 "Folder: %s" [ArgString (imap.Name mi)]), [].
    split; [|log_frame; rewrite app_nil_r; repeat split; [constructor | done]].
    apply Hiter. unfold Iter.
    by rewrite Hsel, log_store, Hscan, Harm, Hret, Hnmm.
  - destruct Hf as (Hret & Hpend & Hall & Hbarm & Hbret). cbn zeta in Hall, Hbret.
    match type of Hiter with context [Iter w os c mi σ1] =>
      assert (Hrun : exists σ0, store σ0 = store σ1 /\ trace σ0 = trace σ1 /\
        forall σ' e,
          (let '(σ2, r) := fetchLoop os mi (locals_init xof key)
                             (items (bodies c (list_to_set (pendingOf (store σ1) c)))) σ0 in
           match r with
           | Ok _ => (σ2, Err err)
           | Err e' => (σ2, Err e')
           | Panic m => (σ2, @Panic unit m)
           end) = (σ', Err e) ->
          Iter w os c mi σ1 = (σ', Err e))
    end.
    { exists (world_at_fetch w mi σ1 n (pendingOf (store σ1) c)).
      destruct (world_at_fetch_frame w mi σ1 n (pendingOf (store σ1) c)) as [Hs0 Ht0].
      split; [done|]. split; [done|]. intros σ' e.
      unfold Iter. rewrite Hsel, log_store, Hscan, Harm, Hret.
      fold (world_at_fetch w mi σ1 n (pendingOf (store σ1) c)).
      destruct (pendingOf (store σ1) c) as [|sn pend] eqn:Hp; [done|].
      cbn [length Nat.eqb]. fold (locals_init xof key).
      destruct (fetchLoop _ _ _ _ _) as [σ2 [l2|e2|m2]]; [|done..].
      by rewrite Hbarm, Hbret. }
    destruct Hrun as (σ0 & Hst0 & Htr0 & Hrun).
    destruct (fetchLoop_persistable os mi _ _ σ0 Hwf Hall)
      as (σ' & l' & evs & Hfl & _ & Htr & Hst & Hrecs).
    exists σ', evs. split; [|rewrite Htr, Hst, Htr0, Hst0; by repeat split].
    apply Hiter, Hrun. by rewrite Hfl.
  - destruct Hf as (Hret & Hpend & Hitems & Hall & Hmenv & lit & e & Hbody & Hread).
    cbn zeta in Hitems.
    assert (Hrun : exists σ0, store σ0 = store σ1 /\ trace σ0 = trace σ1 /\
        forall σ' e,
          fetchLoop os mi (locals_init xof key) (pre ++ msg :: post) σ0
            = (σ', Err e) ->
          Iter w os c mi σ1 = (σ', Err e)).
    { exists (world_at_fetch w mi σ1 n (pendingOf (store σ1) c)).
      destruct (world_at_fetch_frame w mi σ1 n (pendingOf (store σ1) c)) as [Hs0 Ht0].
      split; [done|]. split; [done|]. intros σ' e' Hfl.
      unfold Iter. rewrite Hsel, log_store, Hscan, Harm, Hret.
      fold (world_at_fetch w mi σ1 n (pendingOf (store σ1) c)).
      destruct (pendingOf (store σ1) c) as [|sn pend] eqn:Hp; [done|].
      cbn [length Nat.eqb]. fold (locals_init xof key).
      by rewrite Hitems, Hfl. }
    destruct Hrun as (σ0 & Hst0 & Htr0 & Hrun).
    destruct (fetchLoop_persistable os mi _ _ σ0 Hwf Hall)
      as (σ' & l' & evs & Hfl & Hwf' & Htr & Hst & Hrecs).
    exists σ', evs. split; [|rewrite Htr, Hst, Htr0, Hst0; repeat split; [done|]].
    + apply Hiter, Hrun. rewrite fetchLoop_app, Hfl. cbn [fetchLoop].
      rewrite persist_unfold by done. destruct Hmenv as [envelope Hmenv].
      by rewrite Hmenv, Hbody, Hread.
    + intros msg' name _ _ Hnone Hnotin. cbn [persisted_before] in Hnotin.
      rewrite replay_lookup_notin; [done|].
      rewrite (Forall2_record_of_names _ _ Hrecs) in Hnotin.
      intros Hin. apply Hnotin. rewrite list_fmap_compose.
      by apply list_elem_of_fmap_2.
Qed.

End RunProperties.

(** ** Each key at most once *)

Section WriteOnce.
Context `{Primitives}.

Lemma stat_reliable_honest os : stat_reliable os -> stat_honest os.
Proof. intros Hrel name e. by rewrite Hrel. Qed.

Lemma NoDup_fmap_inj_on {A B} (f : A -> B) (l : list A) x y :
  NoDup (f <$> l) -> x ∈ l -> y ∈ l -> f x = f y -> x = y.
Proof.
  induction l as [|a l IH]; [by intros _ ?%elem_of_nil|].
  rewrite fmap_cons, NoDup_cons, !elem_of_cons.
  intros [Hnin Hnd] [->|Hx] [->|Hy] Heq; try done.
  - destruct Hnin. rewrite Heq. by apply list_elem_of_fmap_2.
  - destruct Hnin. rewrite <- Heq. by apply list_elem_of_fmap_2.
  - by apply IH.
Qed.

(** What the scan has collected when it ends, under an honest [os.Stat]:
    the sequence numbers of the messages that are not archived. *)
Lemma scan_pending os st xof key msgs n ml xof' key' n' ml' :
  stat_honest os ->
  blake2b.size xof = keySize -> length key = keySize ->
  scan os st xof key msgs n ml = Ok (xof', key', n', ml') ->
  ml' = ml ++ (imap.SeqNum <$> filter (fun m => ~ archived st m) msgs).
Proof.
  intros Hhon. revert xof key n ml.
  induction msgs as [|msg msgs IH]; intros xof key n ml Hsz Hlen.
  - intros [= _ _ _ <-]. by rewrite app_nil_r.
  - cbn [scan]. destruct (imap.MsgEnvelope msg) as [envelope|] eqn:Hm; [|done].
    rewrite (fn_Derive _ _ _ Hsz Hlen). unfold os_Stat. rewrite filter_cons.
    destruct (statFault os _) as [e|] eqn:Hfault.
    { by rewrite (Hhon _ _ Hfault). }
    destruct (st !! storeName (imap.MessageId envelope)) as [d|] eqn:Hst.
    + intros Hscan. apply IH in Hscan; [|done|apply Derive_length].
      rewrite decide_False; [done|].
      intros Hn. apply Hn. unfold archived. rewrite Hm, Hst. by eexists.
    + cbn [os_IsNotExist os_ErrNotExist]. rewrite bool_decide_eq_true_2 by done.
      intros Hscan. apply IH in Hscan; [|done|apply Derive_length].
      rewrite decide_True.
      * cbn [fmap list_fmap]. by rewrite <- app_assoc in Hscan.
      * unfold archived. rewrite Hm, Hst. by intros [? ?].
Qed.

Lemma msgName_envelope m m' :
  imap.MsgEnvelope m' = imap.MsgEnvelope m -> msgName m' = msgName m.
Proof. unfold msgName. by intros ->. Qed.

(** Against a well-behaved session and an honest [os.Stat], the events of
    one mailbox have distinct names, none of them in the store before. *)
Lemma Iter_fresh_writes w os c mi σ :
  stat_honest os -> well_behaved c ->
  exists evs,
    trace (Iter w os c mi σ).1 = trace σ ++ evs /\
    store (Iter w os c mi σ).1 = replay evs (store σ) /\
    NoDup (ev_name <$> evs) /\
    Forall (fun ev => store σ !! ev_name ev = None) evs.
Proof.
  intros Hhon (Hfaith & Hkeys & Hseq).
  destruct (Iter_effects w os c mi σ)
    as [[Hst Htr]|(xof & key & n & msgList & σ0 & Hscan & _ & Hwf & Hst0 & Htr0 & Hfl)].
  { exists []. rewrite app_nil_r. repeat split; [done..|constructor|constructor]. }
  cbn zeta in Hfl. destruct Hfl as [Hst Htr].
  apply (scan_pending _ _ _ _ _ _ _ _ _ _ _ Hhon NewXOF_size zero_key_length)
    in Hscan. cbn [app] in Hscan. subst msgList.
  set (pend := imap.SeqNum <$> filter (fun m => ~ archived (store σ) m)
                 (items (envelopes c))) in *.
  destruct (fetchLoop_events os mi (locals_init xof key)
              (items (bodies c (list_to_set pend))) σ0 Hwf)
    as (evs & Htr' & Hst' & _ & Hpre).
  destruct (Hfaith (list_to_set pend)) as (sel & Hsub & Hsame).
  assert (Hnames : msgName <$> items (bodies c (list_to_set pend)) = msgName <$> sel).
  { clear -Hsame. induction Hsame as [|m m' ? ? [_ He] _ IH]; [done|].
    cbn [fmap list_fmap]. by rewrite (msgName_envelope _ _ He), IH. }
  rewrite Hnames in Hpre.
  assert (Hsel : forall m, m ∈ sel -> m ∈ items (envelopes c) /\ ~ archived (store σ) m).
  { intros m Hm. apply (elem_of_sublist _ _ _ Hm) in Hsub.
    apply list_elem_of_filter in Hsub as [Hin Hm'].
    split; [done|].
    apply elem_of_list_to_set in Hin. unfold pend in Hin.
    apply list_elem_of_fmap in Hin as (m0 & Hsn & Hm0).
    apply list_elem_of_filter in Hm0 as [Hna Hm0].
    by rewrite (NoDup_fmap_inj_on imap.SeqNum _ m m0 Hseq Hm' Hm0 Hsn). }
  assert (Hpre' : (Some <$> (ev_name <$> evs)) `sublist_of` (msgName <$> sel)).
  { rewrite <- list_fmap_compose. destruct Hpre as [k ->].
    by apply sublist_inserts_r. }
  exists evs. rewrite Htr, Hst, Htr', Hst', Htr0, Hst0.
  split; [done|]. split; [done|]. split.
  - apply (NoDup_fmap_1 Some). eapply sublist_NoDup; [|exact Hpre'].
    eapply sublist_NoDup; [exact Hkeys|].
    apply fmap_sublist. etrans; [exact Hsub | apply sublist_filter].
  - apply Forall_forall. intros ev Hev.
    assert (Hin : Some (ev_name ev) ∈ msgName <$> sel).
    { eapply elem_of_sublist; [|exact Hpre'].
      by apply list_elem_of_fmap_2, list_elem_of_fmap_2. }
    apply list_elem_of_fmap in Hin as (m & Hname & Hm).
    destruct (Hsel m Hm) as [_ Hna]. unfold archived, msgName in *.
    destruct (imap.MsgEnvelope m) as [envelope|]; [|done].
    injection Hname as ->.
    destruct (store σ !! _) eqn:Hlk; [|done]. destruct Hna. by eexists.
Qed.

(** C4, as amended. In a run against well-behaved sessions (each body
    fetch sends only messages that were asked for, with the envelopes the
    scan saw, and no two messages of one mailbox share a key or a sequence
    number) and an honest [os.Stat], every file name is written at most
    once and none of the names written was in the store before: no record
    is written twice and none is replaced. *)
Theorem iterAll_writes_once w os mbs σ :
  stat_honest os ->
  Forall (fun mb => well_behaved (mb_session mb)) mbs ->
  exists evs,
    trace (iterAll w os mbs σ).1 = trace σ ++ evs /\
    store (iterAll w os mbs σ).1 = replay evs (store σ) /\
    NoDup (ev_name <$> evs) /\
    Forall (fun ev => store σ !! ev_name ev = None) evs.
Proof.
  intros Hhon Hall. revert σ.
  induction Hall as [|mb mbs Hmb _ IH]; intros σ.
  { exists []. rewrite app_nil_r. repeat split; [done..|constructor|constructor]. }
  cbn [iterAll]. destruct (mb_ctxErr mb).
  { exists []. rewrite app_nil_r. repeat split; [done..|constructor|constructor]. }
  destruct (Iter_fresh_writes w os (mb_session mb) (mb_info mb) σ Hhon Hmb)
    as (evs1 & Htr1 & Hst1 & Hnd1 & Hnew1).
  destruct (Iter w os (mb_session mb) (mb_info mb) σ) as [σ1 [[]|e|m]];
    cbn [fst] in Htr1, Hst1.
  2,3: by exists evs1.
  destruct (IH σ1) as (evs2 & Htr2 & Hst2 & Hnd2 & Hnew2).
  exists (evs1 ++ evs2). rewrite Htr2, Hst2, Htr1, Hst1, replay_app, <- app_assoc.
  split; [done|]. split; [done|].
  assert (Hnew2' : Forall (fun ev => store σ !! ev_name ev = None /\
                                     ev_name ev ∉ ev_name <$> evs1) evs2).
  { eapply Forall_impl; [exact Hnew2|]. intros ev Hev. rewrite Hst1 in Hev.
    destruct (decide (ev_name ev ∈ ev_name <$> evs1)) as [Hin|Hnin].
    - apply (replay_lookup_in _ (store σ)) in Hin.
      rewrite Hev in Hin. by destruct Hin.
    - by rewrite replay_lookup_notin in Hev. }
  split.
  - rewrite fmap_app. apply NoDup_app. split; [done|]. split; [|done].
    intros name Hin1 Hin2. apply list_elem_of_fmap in Hin2 as (ev & -> & Hev).
    rewrite Forall_forall in Hnew2'. by destruct (Hnew2' ev Hev).
  - apply Forall_app. split; [done|].
    eapply Forall_impl; [exact Hnew2'|]. by intros ev [? _].
Qed.

End WriteOnce.

Section ScenarioFacts.
Import Scenario.

Lemma os_ok_reliable : stat_reliable os_ok.
Proof. by intros name. Qed.

Lemma serve_faithful (msgs : list imap.Message) : faithful (serve msgs).
Proof.
  intros ss. exists (filter (fun m => imap.SeqNum m ∈ ss) msgs).
  split; [done|]. cbn [serve bodies items].
  induction (filter _ msgs) as [|m l IH]; by constructor.
Qed.

End ScenarioFacts.

(** Scenario A: from an empty store, a run over an inbox of two messages
    writes the two files, named after the keys of the message ids. *)
Example Iter_scenario_A :
  let r := @Iter Scenario.prims Scenario.worker Scenario.os_ok
             (Scenario.serve Scenario.inbox) Scenario.INBOX Scenario.world0 in
  r.2 = Ok () /\
  ev_name <$> trace r.1 = [@storeName Scenario.prims "a@x";
                           @storeName Scenario.prims "b@x"] /\
  (ev_data <$> trace r.1) = (fun name => default [] (store r.1 !! name))
                              <$> (ev_name <$> trace r.1).
Proof. cbn zeta. split; [|split]; vm_compute; reflexivity. Qed.

(** The hypotheses of [Iter_no_matching_messages] hold of an empty
    mailbox whose envelope fetch says that no messages match. *)
Lemma Iter_no_matching_messages_witness :
  let r := @Iter Scenario.prims Scenario.worker Scenario.os_ok
             Scenario.empty_mailbox Scenario.Empty Scenario.world0 in
  r.2 = Ok () /\ store r.1 = store Scenario.world0 /\
  trace r.1 = trace Scenario.world0.
Proof.
  apply (@Iter_no_matching_messages Scenario.prims Scenario.worker
           Scenario.os_ok Scenario.empty_mailbox Scenario.Empty
           Scenario.world0 Scenario.no_messages).
  - reflexivity.
  - intros name. reflexivity.
  - constructor.
  - reflexivity.
  - reflexivity.
  - vm_compute. reflexivity.
Defined.

(** C2, refuted for the body fetch. When the body fetch of a mailbox ends
    with the server saying that no messages match, [Iter] returns that
    error: the mailbox is not completed with a nil error. *)
Lemma Iter_body_fetch_no_matching_messages :
  let c := Scenario.vanished in
  let r := @Iter Scenario.prims Scenario.worker Scenario.os_ok c
             Scenario.Empty Scenario.world0 in
  returned (bodies c {[ 1%N ]}) = Some Scenario.no_messages /\
  Contains (Error Scenario.no_messages) "No matching messages" = true /\
  r.2 = Err Scenario.no_messages /\ r.2 <> Ok ().
Proof. cbn zeta. repeat split; try (vm_compute; reflexivity). discriminate. Qed.


(** The hypotheses of [fetchLoop_nil_body_panics] hold of a body fetch
    whose second message has no body section. *)
Lemma fetchLoop_nil_body_panics_witness :
  let pre := [Scenario.message 1 "a@x" "Hel" "lo"] in
  let msg := Scenario.message_no_body 2 "b@x" in
  @fetchLoop Scenario.prims Scenario.os_ok Scenario.INBOX Scenario.locals0
    (pre ++ msg :: []) Scenario.world0 =
  ((@fetchLoop Scenario.prims Scenario.os_ok Scenario.INBOX Scenario.locals0
      pre Scenario.world0).1, Panic nil_deref).
Proof.
  cbn zeta.
  eapply (@fetchLoop_nil_body_panics Scenario.prims).
  - split; reflexivity.
  - vm_compute. reflexivity.
  - vm_compute. reflexivity.
Defined.

(** C4, refuted. Two pending messages of one mailbox with the same
    message id are both fetched and both written, under the same name:
    the key is written twice in the run and the second write replaces the
    record the first has created. *)
Lemma Iter_twins_written_twice :
  let name := @storeName Scenario.prims "a@x" in
  let r := @Iter Scenario.prims Scenario.worker Scenario.os_ok
             (Scenario.serve Scenario.twins) Scenario.INBOX Scenario.world0 in
  r.2 = Ok () /\
  ev_name <$> trace r.1 = [name; name] /\
  (exists d1 d2, ev_data <$> trace r.1 = [d1; d2] /\ d1 <> d2 /\
                 store r.1 !! name = Some d2).
Proof.
  cbn zeta. split; [vm_compute; reflexivity|]. split; [vm_compute; reflexivity|].
  eexists _, _. split; [vm_compute; reflexivity|].
  split; [|vm_compute; reflexivity].
  intros Heq. apply (f_equal length) in Heq. vm_compute in Heq. discriminate Heq.
Qed.

(** The hypotheses of [iterAll_writes_once] hold of a run over the inbox
    of scenario A and an archive that repeats one of its messages. *)
Lemma iterAll_writes_once_witness :
  exists evs,
    trace (@iterAll Scenario.prims Scenario.worker Scenario.os_ok
             [Scenario.mailbox Scenario.INBOX Scenario.inbox;
              Scenario.mailbox Scenario.Archive Scenario.archive]
             Scenario.world0).1 = trace Scenario.world0 ++ evs /\
    store (@iterAll Scenario.prims Scenario.worker Scenario.os_ok
             [Scenario.mailbox Scenario.INBOX Scenario.inbox;
              Scenario.mailbox Scenario.Archive Scenario.archive]
             Scenario.world0).1 = replay evs (store Scenario.world0) /\
    NoDup (ev_name <$> evs) /\
    Forall (fun ev => store Scenario.world0 !! ev_name ev = None) evs.
Proof.
  apply (@iterAll_writes_once Scenario.prims).
  - intros name e. discriminate.
  - constructor; [|constructor; [|constructor]];
      (split; [apply serve_faithful|]);
      split; apply (bool_decide_unpack _); vm_compute; reflexivity.
Defined.

(** The hypotheses of [storeKey_of_MessageId_alone] hold of a message of
    the inbox and a message of the archive with the same message id and
    another sequence number, sender-independent body and mailbox: once the
    first is persisted, the scan counts the second as existing. *)
Lemma storeKey_of_MessageId_alone_witness :
  let a := Scenario.message 1 "a@x" "Hel" "lo" in
  let b := Scenario.message 7 "a@x" "another " "body" in
  let σ' := (@persist Scenario.prims Scenario.os_ok Scenario.INBOX
               Scenario.locals0 a Scenario.world0).1 in
  exists xof' key',
    @scan Scenario.prims Scenario.os_ok (store σ')
      (@blake2b.NewXOF keySize) (replicate keySize Byte.x00) [b] 0 [] =
    Ok (xof', key', 1, []).
Proof.
  cbn zeta.
  eapply (@storeKey_of_MessageId_alone Scenario.prims Scenario.os_ok
            Scenario.INBOX Scenario.Archive Scenario.locals0
            (Scenario.message 1 "a@x" "Hel" "lo")
            (Scenario.message 7 "a@x" "another " "body")
            (Scenario.envelope "a@x" "<parent@x>")
            (Scenario.envelope "a@x" "<parent@x>")
            Scenario.world0 _
            (match (@persist Scenario.prims Scenario.os_ok Scenario.INBOX
                      Scenario.locals0 (Scenario.message 1 "a@x" "Hel" "lo")
                      Scenario.world0).2 with
             | Ok l => l
             | _ => Scenario.locals0
             end)).
  - reflexivity.
  - reflexivity.
  - reflexivity.
  - split; reflexivity.
  - reflexivity.
  - reflexivity.
  - intros name. reflexivity.
  - vm_compute. reflexivity.
Defined.

(** The hypotheses of [List_stream_failure] hold of a run whose second
    mailbox has a message with a body that fails to read: [List] returns
    the wrapped error and no file of the key of that message exists. *)
Lemma List_stream_failure_witness :
  let srv := Scenario.server [Scenario.mailbox Scenario.INBOX Scenario.inbox;
                              Scenario.mailbox Scenario.Archive Scenario.broken] in
  exists σ',
    @List Scenario.prims Scenario.worker Scenario.os_ok srv "imap.x:993"
      Scenario.world0 = (σ', Err (Errorf_w "iter: " (errorString "hash body"))) /\
    store σ' !! @storeName Scenario.prims "d@x" = None.
Proof.
  cbn zeta.
  destruct (@List_stream_failure Scenario.prims Scenario.worker Scenario.os_ok
              (Scenario.server [Scenario.mailbox Scenario.INBOX Scenario.inbox;
                                Scenario.mailbox Scenario.Archive Scenario.broken])
              "imap.x:993" Scenario.world0
              [Scenario.mailbox Scenario.INBOX Scenario.inbox]
              (Scenario.mailbox Scenario.Archive Scenario.broken) []
              (@iterAll Scenario.prims Scenario.worker Scenario.os_ok
                 [Scenario.mailbox Scenario.INBOX Scenario.inbox]
                 Scenario.world0).1
              (BodyReadFails [Scenario.message 1 "c@x" "So" "on"]
                 (Scenario.message_bad_body 2 "d@x" "par") []))
    as (σ' & evs & HList & _ & _ & _ & Hnone).
  - reflexivity.
  - reflexivity.
  - reflexivity.
  - reflexivity.
  - vm_compute. reflexivity.
  - reflexivity.
  - reflexivity.
  - intros name. reflexivity.
  - repeat constructor; eexists; reflexivity.
  - split; [reflexivity|]. split; [reflexivity|].
    split; [vm_compute; discriminate|]. split; [vm_compute; reflexivity|].
    split; [|split; [eexists; reflexivity|]].
    + constructor; [|constructor]. eexists _, _, _.
      repeat split; vm_compute; reflexivity.
    + eexists _, _. split; vm_compute; reflexivity.
  - exists σ'. split; [exact HList|].
    apply (Hnone (Scenario.message_bad_body 2 "d@x" "par")).
    + reflexivity.
    + reflexivity.
    + vm_compute. reflexivity.
    + vm_compute. intros Hin. apply list_elem_of_In in Hin.
      destruct Hin as [Heq|[]]. discriminate Heq.
Defined.

(** Two message ids the stand-in XOF tells apart get distinct keys and
    distinct file names, by [Derive_distinct_iff_xof]. *)
Lemma Derive_distinct_iff_xof_witness :
  @Derive Scenario.prims "a@x" <> @Derive Scenario.prims "b@x" /\
  @storeName Scenario.prims "a@x" <> @storeName Scenario.prims "b@x".
Proof.
  apply (proj2 (proj2 (@Derive_distinct_iff_xof Scenario.prims "a@x" "b@x"))).
  vm_compute. discriminate.
Defined.


(** * Further properties of the code *)

(** ** [fn]: when it fails, and the shape of the name *)

Section FnEdges.
Context `{Primitives}.

(** X1. [fn] on a XOF of any definite output size and any key slice.
    With an output of at least the length of the slice, the slice is
    filled from the start of the stream and its base32 text returned;
    with a shorter output the read is short, [fn] returns the
    invalid-read error and the slice is left half filled.  The length of
    the slice never changes. *)
Theorem fn_cases (xof : blake2b.XOF) (key : bytes) (msgID : string) :
  let out := fun n => map (blake2b_XOF_stream (blake2b.size xof)
                             (bytes_of_string msgID)) (seq 0 n) in
  let r := fn xof key msgID in
  (0 < blake2b.size xof -> length key <= blake2b.size xof ->
   r.2 = Ok (base32.EncodeToString (out (length key))) /\
   r.1.2 = out (length key)) /\
  (0 < blake2b.size xof -> blake2b.size xof < length key ->
   r.2 = Err (errorString ("xof invalid read "
                           +:+ FormatInt (Z.of_nat (blake2b.size xof))
                           +:+ ": %!w(<nil>)")) /\
   r.1.2 = out (blake2b.size xof) ++ drop (blake2b.size xof) key) /\
  length r.1.2 = length key.
Proof.
  cbn zeta. unfold fn, blake2b.Reset, blake2b.Write, blake2b.Read.
  cbn [blake2b.readMode blake2b.size blake2b.data blake2b.remaining app].
  rewrite Nat.sub_diag.
  destruct (Nat.eqb_spec (blake2b.size xof) 0) as [Hz|Hnz].
  { cbn. repeat split; try done; lia. }
  destruct (Nat.le_gt_cases (length key) (blake2b.size xof)) as [Hle|Hgt].
  - rewrite Nat.min_l by done. rewrite drop_all, app_nil_r.
    rewrite length_map, length_seq, Nat.eqb_refl. cbn.
    repeat split; try done; try lia. by rewrite length_map, length_seq.
  - rewrite Nat.min_r by lia.
    rewrite length_app, length_map, length_seq, length_drop.
    replace (blake2b.size xof + (length key - blake2b.size xof))
      with (length key) by lia.
    destruct (Nat.eqb_spec (blake2b.size xof) (length key)) as [Heq|Hne]; [lia|].
    cbn. repeat split; try done; try lia.
    rewrite length_app, length_map, length_seq, length_drop. lia.
Qed.

End FnEdges.

Section NameShape.
Import base32.

Lemma quintets_length (bs : list bool) :
  length (quintets bs) = (length bs + 4) / 5.
Proof.
  induction bs as [|a|a b|a b c|a b c d|a b c d e l IH] using base32_facts.list_ind5;
    try reflexivity.
  cbn [quintets length]. rewrite IH.
  replace (S (S (S (S (S (length l))))) + 4) with ((length l + 4) + 1 * 5) by lia.
  rewrite Nat.div_add by lia. lia.
Qed.

Lemma symbol_in_alphabet (q : list bool) :
  symbol q ∈ list_ascii_of_string encodeStd.
Proof.
  unfold symbol.
  destruct (nth_in_or_default (index_of_bits q)
              (list_ascii_of_string encodeStd) "A"%char) as [Hin| ->].
  - by apply list_elem_of_In.
  - vm_compute. left.
Qed.

(** The text form of [n] bytes has [(8n + 4) / 5] characters, all of
    them letters [A]-[Z] or digits [2]-[7]. *)
Lemma EncodeToString_shape (src : bytes) :
  String.length (EncodeToString src) = (8 * length src + 4) / 5 /\
  Forall (fun ch => ch ∈ list_ascii_of_string encodeStd)
         (list_ascii_of_string (EncodeToString src)).
Proof.
  unfold EncodeToString. split.
  - rewrite <- (list_ascii_of_string_of_list_ascii (map _ _)) at 1.
    rewrite string_of_list_ascii_of_string.
    assert (Hlen : forall l, String.length (string_of_list_ascii l) = length l).
    { induction l as [|c l IH]; [done|]. cbn. by rewrite IH. }
    by rewrite Hlen, length_map, quintets_length, base32_facts.bits_of_bytes_length.
  - rewrite list_ascii_of_string_of_list_ascii.
    apply Forall_forall. intros ch Hin.
    apply list_elem_of_In, in_map_iff in Hin as (q & <- & _).
    apply symbol_in_alphabet.
Qed.

End NameShape.

Section NameShapeIter.
Context `{Primitives}.

(** X2. The file name [Iter] derives for a message id is safe as a file
    name: it has 52 characters, each a letter [A]-[Z] or a digit [2]-[7], so
    it has no path separator, no dot and is never empty. *)
Theorem storeName_shape (msgID : string) :
  String.length (storeName msgID) = 52 /\
  Forall (fun ch => ch ∈ list_ascii_of_string base32.encodeStd)
         (list_ascii_of_string (storeName msgID)) /\
  (("/"%char) ∉ list_ascii_of_string (storeName msgID)) /\
  (("."%char) ∉ list_ascii_of_string (storeName msgID)).
Proof.
  unfold storeName.
  destruct (EncodeToString_shape (Derive msgID)) as [Hlen Hall].
  rewrite Derive_length in Hlen.
  split; [exact Hlen|]. split; [exact Hall|].
  rewrite Forall_forall in Hall.
  split; intros Hin; apply Hall in Hin; vm_compute in Hin;
    repeat (apply elem_of_cons in Hin as [Hin|Hin]; [discriminate Hin|]);
    by apply elem_of_nil in Hin.
Qed.

End NameShapeIter.

(** ** The scan: counting, and how it ends early *)

Section ScanEdges.
Context `{Primitives}.

(** X3. When the scan ends, every message has been counted once: as existing
    or as pending. The pending list has only grown, at its end. *)
Theorem scan_counts_each_once os st xof key msgs n ml xof' key' n' ml' :
  scan os st xof key msgs n ml = Ok (xof', key', n', ml') ->
  n' + length ml' = n + length ml + length msgs /\
  ml `prefix_of` ml' /\ n <= n' /\ Forall has_envelope msgs.
Proof.
  revert xof key n ml.
  induction msgs as [|msg msgs IH]; intros xof key n ml.
  - intros [= _ _ <- <-]. cbn [length]. repeat split; [lia|done|lia|constructor].
  - cbn [scan]. destruct (imap.MsgEnvelope msg) as [envelope|] eqn:Hm; [|done].
    destruct (fn xof key _) as [[xof1 key1] [name|e|m]]; [|done..].
    assert (Henv : has_envelope msg) by (unfold has_envelope; rewrite Hm; by eexists).
    destruct (os_Stat os st name) as [err|].
    + destruct (os_IsNotExist err); [|done].
      intros Hs. apply IH in Hs as (Hc & Hp & Hn & Hall).
      rewrite length_app in Hc. cbn [length] in *.
      split; [lia|]. split; [|split; [lia|by constructor]].
      etrans; [|exact Hp]. by apply prefix_app_r.
    + intros Hs. apply IH in Hs as (Hc & Hp & Hn & Hall).
      cbn [length]. split; [lia|]. split; [done|]. split; [lia|by constructor].
Qed.

(** The scan of the messages before the first one that stops it. *)
Lemma scan_clean_prefix os st xof key pre rest n ml :
  blake2b.size xof = keySize -> length key = keySize ->
  Forall (stat_clean os) pre ->
  exists xof1 key1 n1 ml1,
    blake2b.size xof1 = keySize /\ length key1 = keySize /\
    scan os st xof key (pre ++ rest) n ml = scan os st xof1 key1 rest n1 ml1.
Proof.
  intros Hsz Hlen Hpre. revert xof key n ml Hsz Hlen.
  induction Hpre as [|msg pre (envelope & Hm & Hclean) _ IH];
    intros xof key n ml Hsz Hlen.
  - by exists xof, key, n, ml.
  - cbn [app scan]. rewrite Hm, (fn_Derive _ _ _ Hsz Hlen). unfold os_Stat.
    rewrite Hclean. destruct (st !! _).
    + apply IH; [done | apply Derive_length].
    + cbn [os_IsNotExist os_ErrNotExist]. rewrite bool_decide_eq_true_2 by done.
      apply IH; [done | apply Derive_length].
Qed.

(** X4. When [os.Stat] fails on the file of a message, other than by saying
    that it does not exist, [Iter] returns the error wrapped at once: it
    does not wait for the envelope fetch to end, asks for no body and writes
    nothing. *)
Theorem Iter_stat_failure w os c mi σ pre msg post envelope e :
  selectErr c = None ->
  items (envelopes c) = pre ++ msg :: post ->
  Forall (stat_clean os) pre ->
  imap.MsgEnvelope msg = Some envelope ->
  statFault os (storeName (imap.MessageId envelope)) = Some e ->
  os_IsNotExist e = false ->
  Iter w os c mi σ =
  (log w σ "Folder: %s" [ArgString (imap.Name mi)],
   Err (Errorf_w "store stat: " e)).
Proof.
  intros Hsel Hitems Hpre Hm Hfault Hne. unfold Iter. rewrite Hsel, Hitems.
  destruct (scan_clean_prefix os (store (log w σ "Folder: %s"
              [ArgString (imap.Name mi)])) _ _ pre (msg :: post) 0 []
              NewXOF_size zero_key_length Hpre)
    as (xof1 & key1 & n1 & ml1 & Hsz & Hlen & ->).
  cbn [scan]. rewrite Hm, (fn_Derive _ _ _ Hsz Hlen). unfold os_Stat.
  by rewrite Hfault, Hne.
Qed.

(** X5. When a message of the envelope fetch has no envelope, [Iter] panics
    on the nil pointer during the scan: it returns no error and has written
    nothing. *)
Theorem Iter_nil_envelope_panics w os c mi σ pre msg post :
  selectErr c = None ->
  items (envelopes c) = pre ++ msg :: post ->
  Forall (stat_clean os) pre ->
  imap.MsgEnvelope msg = None ->
  Iter w os c mi σ =
  (log w σ "Folder: %s" [ArgString (imap.Name mi)], Panic nil_deref).
Proof.
  intros Hsel Hitems Hpre Hm. unfold Iter. rewrite Hsel, Hitems.
  destruct (scan_clean_prefix os (store (log w σ "Folder: %s"
              [ArgString (imap.Name mi)])) _ _ pre (msg :: post) 0 []
              NewXOF_size zero_key_length Hpre)
    as (xof1 & key1 & n1 & ml1 & Hsz & Hlen & ->).
  cbn [scan]. by rewrite Hm.
Qed.

End ScanEdges.

(** ** The second loop: the copy, and a write that fails *)

Section PersistEdges.
Context `{Primitives}.

(** X6. How the transport cuts the body into reads has no effect: two
    messages with the same envelope whose bodies read to the same bytes,
    with the same end, are persisted alike. *)
Theorem persist_chunking os mi l msg1 msg2 lit1 lit2 σ :
  wf_locals l ->
  imap.MsgEnvelope msg1 = imap.MsgEnvelope msg2 ->
  imap.GetBody msg1 secName = Some lit1 ->
  imap.GetBody msg2 secName = Some lit2 ->
  concat (imap.chunks lit1) = concat (imap.chunks lit2) ->
  imap.readErr lit1 = imap.readErr lit2 ->
  persist os mi l msg1 σ = persist os mi l msg2 σ.
Proof.
  intros Hwf Henv Hb1 Hb2 Hcat Herr.
  rewrite !persist_unfold by done.
  by rewrite Henv, Hb1, Hb2, Hcat, Herr.
Qed.

(** X7. When [os.WriteFile] fails after it has created the file, the turn
    returns the error wrapped and the part that was written stays in the
    store under the name of the message; a scan that comes later counts the
    message as existing, so the record is not fetched again. *)
Theorem short_write_stays os mi l msg envelope lit block e n σ :
  wf_locals l ->
  imap.MsgEnvelope msg = Some envelope ->
  imap.GetBody msg secName = Some lit ->
  imap.readErr lit = None ->
  json_Encode (header_for mi envelope (concat (imap.chunks lit))) = Ok block ->
  writeFault os (storeName (imap.MessageId envelope)) = Some (WriteFails e n) ->
  let data := block ++ headerSep ++ concat (imap.chunks lit) in
  let r := persist os mi l msg σ in
  r.2 = Err (Errorf_w "write: " e) /\
  store r.1 !! storeName (imap.MessageId envelope) = Some (take n data) /\
  trace r.1 = trace σ ++ [EvShortWrite (storeName (imap.MessageId envelope))
                                        (take n data)] /\
  (statFault os (storeName (imap.MessageId envelope)) = None ->
   forall xof key cnt ml,
     blake2b.size xof = keySize -> length key = keySize ->
     exists xof' key',
       scan os (store r.1) xof key [msg] cnt ml = Ok (xof', key', S cnt, ml)).
Proof.
  intros Hwf Hm Hb Hr Hj Hw. cbn zeta.
  rewrite persist_unfold by done. rewrite Hm, Hb. cbn zeta. rewrite Hr, Hj.
  unfold os_WriteFile. rewrite Hw. cbn [fst snd store trace].
  split; [done|]. split; [apply lookup_insert_eq|]. split; [done|].
  intros Hstat xof key cnt ml Hsz Hlen. cbn [scan].
  rewrite Hm, (fn_Derive _ _ _ Hsz Hlen). unfold os_Stat.
  rewrite Hstat, lookup_insert_eq. by eexists _, _.
Qed.

(** X8. [Iter] asks for the bodies of the pending messages and for no other:
    two sessions that differ only in what a body fetch of another set would
    send are processed alike, and with nothing pending the body fetch plays
    no part at all. *)
Theorem Iter_fetches_pending_only w os c c' mi σ :
  stat_honest os ->
  selectErr c = selectErr c' ->
  envelopes c = envelopes c' ->
  envelopesArm c = envelopesArm c' ->
  bodiesArm c = bodiesArm c' ->
  (pendingOf (store σ) c = [] \/
   bodies c (list_to_set (pendingOf (store σ) c)) =
   bodies c' (list_to_set (pendingOf (store σ) c))) ->
  Iter w os c mi σ = Iter w os c' mi σ.
Proof.
  intros Hhon Hsel Henv Harm Hbarm Hbodies. unfold Iter.
  rewrite <- Hsel, <- Henv, <- Harm, <- Hbarm.
  destruct (selectErr c); [done|]. rewrite log_store.
  destruct (scan _ _ _ _ _ _ _) as [[[[xof key] n] msgList]|e|m] eqn:Hscan;
    [|done..].
  apply (scan_pending _ _ _ _ _ _ _ _ _ _ _ Hhon NewXOF_size zero_key_length)
    in Hscan. cbn [app] in Hscan. fold (pendingOf (store σ) c) in Hscan.
  subst msgList.
  destruct (envelopesArm c); [done|].
  destruct (returned (envelopes c)); [done|].
  destruct Hbodies as [-> | <-]; done.
Qed.

End PersistEdges.

(** ** The run: what it never does *)

Section RunEdges.
Context `{Primitives}.

Lemma replay_grows evs (st : Dir) name :
  is_Some (st !! name) -> is_Some (replay evs st !! name).
Proof. apply replay_lookup_Some. Qed.

Lemma iterAll_events w os mbs σ :
  exists evs,
    trace (iterAll w os mbs σ).1 = trace σ ++ evs /\
    store (iterAll w os mbs σ).1 = replay evs (store σ) /\
    Forall (fun ev => exists mb ss,
              mb ∈ mbs /\ event_ok (items (bodies (mb_session mb) ss)) ev) evs.
Proof.
  revert σ. induction mbs as [|mb mbs IH]; intros σ.
  { exists []. rewrite app_nil_r. repeat split; [done..|constructor]. }
  cbn [iterAll]. destruct (mb_ctxErr mb).
  { exists []. rewrite app_nil_r. repeat split; [done..|constructor]. }
  destruct (Iter_events w os (mb_session mb) (mb_info mb) σ)
    as (evs1 & Htr1 & Hst1 & Hok1).
  assert (Hok1' : Forall (fun ev => exists mb' ss,
             mb' ∈ mb :: mbs /\ event_ok (items (bodies (mb_session mb') ss)) ev) evs1).
  { eapply Forall_impl; [exact Hok1|]. intros ev [ss Hev].
    exists mb, ss. split; [left | done]. }
  destruct (Iter w os (mb_session mb) (mb_info mb) σ) as [σ1 [[]|e|m]];
    cbn [fst] in Htr1, Hst1.
  2,3: by exists evs1.
  destruct (IH σ1) as (evs2 & Htr2 & Hst2 & Hok2).
  exists (evs1 ++ evs2). rewrite Htr2, Hst2, Htr1, Hst1, replay_app, <- app_assoc.
  split; [done|]. split; [done|]. apply Forall_app. split; [done|].
  eapply Forall_impl; [exact Hok2|]. intros ev (mb' & ss & Hin & Hev).
  exists mb', ss. split; [by right | done].
Qed.

Lemma List_grows w os srv server σ name :
  is_Some (store σ !! name) ->
  is_Some (store (List w os srv server σ).1 !! name).
Proof.
  intros Hs. unfold List.
  destruct (dialErr srv); [done|]. destruct (loginErr srv); [done|].
  assert (Hgo : is_Some (store
            (match iterAll w os (mailboxes srv) σ with
             | (σ0, Ok _) => match logoutErr srv with
                             | Some err => (σ0, Err err)
                             | None => (σ0, Ok ())
                             end
             | r => r
             end).1 !! name)).
  { destruct (iterAll_events w os (mailboxes srv) σ) as (evs & _ & Hst & _).
    destruct (iterAll w os (mailboxes srv) σ) as [σ0 [[]|e|m]]; cbn [fst] in *;
      try destruct (logoutErr srv); cbn [fst]; rewrite Hst;
      by apply replay_lookup_Some. }
  destruct (listArm srv); [exact Hgo|].
  destruct (listErr srv); [done | exact Hgo].
Qed.

(** X9. A run never removes a file, and it leaves every file alone that is
    not named by one of its writes; each file it writes in full is the
    record of a message that a body fetch of one of the mailboxes sent. *)
Theorem List_never_deletes w os srv server σ :
  exists evs,
    trace (List w os srv server σ).1 = trace σ ++ evs /\
    store (List w os srv server σ).1 = replay evs (store σ) /\
    (forall name, is_Some (store σ !! name) ->
                  is_Some (store (List w os srv server σ).1 !! name)) /\
    (forall name, name ∉ ev_name <$> evs ->
                  store (List w os srv server σ).1 !! name = store σ !! name) /\
    Forall (fun ev => exists mb ss,
              mb ∈ mailboxes srv /\
              event_ok (items (bodies (mb_session mb) ss)) ev) evs.
Proof.
  assert (Hnil : exists evs : list Event,
            trace σ = trace σ ++ evs /\ store σ = replay evs (store σ) /\
            (forall name, is_Some (store σ !! name) -> is_Some (store σ !! name)) /\
            (forall name, name ∉ ev_name <$> evs -> store σ !! name = store σ !! name) /\
            Forall (fun ev => exists mb ss,
              mb ∈ mailboxes srv /\
              event_ok (items (bodies (mb_session mb) ss)) ev) evs).
  { exists []. rewrite app_nil_r. repeat split; [done..|constructor]. }
  assert (Hrun : exists evs,
            trace (iterAll w os (mailboxes srv) σ).1 = trace σ ++ evs /\
            store (iterAll w os (mailboxes srv) σ).1 = replay evs (store σ) /\
            (forall name, is_Some (store σ !! name) ->
               is_Some (store (iterAll w os (mailboxes srv) σ).1 !! name)) /\
            (forall name, name ∉ ev_name <$> evs ->
               store (iterAll w os (mailboxes srv) σ).1 !! name = store σ !! name) /\
            Forall (fun ev => exists mb ss,
              mb ∈ mailboxes srv /\
              event_ok (items (bodies (mb_session mb) ss)) ev) evs).
  { destruct (iterAll_events w os (mailboxes srv) σ) as (evs & Htr & Hst & Hok).
    exists evs. rewrite Hst. split; [done|]. split; [done|].
    split; [intros name; apply replay_grows|].
    split; [intros name; apply replay_lookup_notin | done]. }
  unfold List.
  destruct (dialErr srv); [exact Hnil|].
  destruct (loginErr srv); [exact Hnil|].
  assert (Hgo : exists evs,
    let r := match iterAll w os (mailboxes srv) σ with
             | (σ0, Ok _) => match logoutErr srv with
                             | Some err => (σ0, Err err)
                             | None => (σ0, Ok ())
                             end
             | r => r
             end in
    trace r.1 = trace σ ++ evs /\ store r.1 = replay evs (store σ) /\
    (forall name, is_Some (store σ !! name) -> is_Some (store r.1 !! name)) /\
    (forall name, name ∉ ev_name <$> evs -> store r.1 !! name = store σ !! name) /\
    Forall (fun ev => exists mb ss,
              mb ∈ mailboxes srv /\
              event_ok (items (bodies (mb_session mb) ss)) ev) evs).
  { destruct Hrun as (evs & Hrun). exists evs. cbn zeta.
    destruct (iterAll w os (mailboxes srv) σ) as [σ0 [[]|e|m]]; [|done..].
    by destruct (logoutErr srv). }
  destruct (listArm srv); [exact Hgo|].
  destruct (listErr srv); [exact Hnil | exact Hgo].
Qed.


End RunEdges.

(** ** The errors of [Iter] *)

Section IterErrors.
Context `{Primitives}.

Lemma scan_errors os st xof key msgs n ml e :
  blake2b.size xof = keySize -> length key = keySize ->
  scan os st xof key msgs n ml = Err e ->
  exists name err,
    statFault os name = Some err /\ os_IsNotExist err = false /\
    e = Errorf_w "store stat: " err.
Proof.
  revert xof key n ml. induction msgs as [|msg msgs IH]; intros xof key n ml Hsz Hlen.
  - done.
  - cbn [scan]. destruct (imap.MsgEnvelope msg) as [envelope|]; [|done].
    rewrite (fn_Derive _ _ _ Hsz Hlen). unfold os_Stat.
    destruct (statFault os _) as [err|] eqn:Hfault.
    + destruct (os_IsNotExist err) eqn:Hne.
      * apply IH; [done | apply Derive_length].
      * intros [= <-]. by exists (storeName (imap.MessageId envelope)), err.
    + destruct (st !! _).
      * apply IH; [done | apply Derive_length].
      * cbn [os_IsNotExist os_ErrNotExist]. rewrite bool_decide_eq_true_2 by done.
        apply IH; [done | apply Derive_length].
Qed.

Lemma fetchLoop_errors os c ss mi l msgs σ σ' e :
  wf_locals l ->
  (forall msg, msg ∈ msgs -> msg ∈ items (bodies c ss)) ->
  fetchLoop os mi l msgs σ = (σ', Err e) ->
  IterError os c e.
Proof.
  revert l σ. induction msgs as [|msg msgs IH]; intros l σ Hwf Hin; [done|].
  cbn [fetchLoop].
  destruct (persist os mi l msg σ) as [σ1 [l1|e1|m1]] eqn:Hp; [| |done].
  - apply IH; [by destruct (persist_Ok _ _ _ _ _ _ _ Hwf Hp)|].
    intros msg' Hmsg'. apply Hin. by right.
  - intros [= <- <-]. rewrite persist_unfold in Hp by done.
    destruct (imap.MsgEnvelope msg) as [envelope|]; [|done].
    destruct (imap.GetBody msg secName) as [lit|] eqn:Hb; [|done].
    cbn zeta in Hp. destruct (imap.readErr lit) as [err|] eqn:Hr.
    { injection Hp as _ <-. eapply IE_body; [apply Hin; left | exact Hb | exact Hr]. }
    destruct (json_Encode _) as [block|err|m] eqn:Hj; [| |done].
    + unfold os_WriteFile in Hp.
      destruct (writeFault os _) as [[err|err n]|] eqn:Hw; [| |done].
      * injection Hp as _ <-. by eapply IE_write_open.
      * injection Hp as _ <-. by eapply IE_write.
    + injection Hp as _ <-. by eapply IE_marshal.
Qed.

(** X11. Every error [Iter] returns is one of: the select error, wrapped; a
    failure of [os.Stat] other than "does not exist", wrapped; the error of
    the context at one of the two waits; the error of the envelope fetch,
    wrapped, unless it says that no messages match; "hash body" for a body
    that fails to read; the header encoding error, wrapped; the write error,
    wrapped; the error of the body fetch, as it is. [fn] never fails in
    [Iter]: its two error returns are not among them. *)
Theorem Iter_errors w os c mi σ σ' e :
  Iter w os c mi σ = (σ', Err e) -> IterError os c e.
Proof.
  unfold Iter.
  destruct (selectErr c) as [err|] eqn:Hsel.
  { intros [= _ <-]. by apply IE_select. }
  destruct (scan _ _ _ _ _ _ _) as [[[[xof key] n] msgList]|e1|m1] eqn:Hscan;
    [| |done].
  2: { intros [= _ <-].
       destruct (scan_errors _ _ _ _ _ _ _ _ NewXOF_size zero_key_length Hscan)
         as (name & err & Hf & Hne & ->). by eapply IE_stat. }
  destruct (envelopesArm c) as [e1|] eqn:Harm.
  { intros [= _ <-]. by apply IE_envelopes_ctx. }
  destruct (returned (envelopes c)) as [err|] eqn:Hret.
  { destruct (Contains _ _) eqn:Hnmm; [done|].
    intros [= _ <-]. by apply IE_fetch. }
  destruct (Nat.eqb _ _); [done|].
  destruct (fetchLoop _ _ _ _ _) as [σ1 [l1|e1|m1]] eqn:Hfl; [| |done].
  - destruct (bodiesArm c) as [e1|] eqn:Hbarm.
    { intros [= _ <-]. by apply IE_bodies_ctx. }
    destruct (returned (bodies c _)) as [err|] eqn:Hbret; [|done].
    intros [= _ <-]. by eapply IE_bodies.
  - intros [= _ <-].
    eapply (fetchLoop_errors os c); [|by intros msg Hmsg|exact Hfl].
    apply (scan_wf _ _ _ _ _ _ _ _ _ _ _ NewXOF_size zero_key_length Hscan).
Qed.

End IterErrors.

(** ** Logging *)

Section Logging.
Context `{Primitives}.

Lemma log_same_files w1 w2 σ1 σ2 f1 v1 f2 v2 :
  same_files σ1 σ2 -> same_files (log w1 σ1 f1 v1) (log w2 σ2 f2 v2).
Proof. intros [Hs Ht]. split; by log_frame. Qed.

Lemma log_quiet w σ f v : Verbose w = false -> log w σ f v = σ.
Proof. intros Hq. unfold log. by rewrite Hq. Qed.

Lemma persist_same_files os mi l msg σ1 σ2 :
  wf_locals l -> same_files σ1 σ2 ->
  (persist os mi l msg σ1).2 = (persist os mi l msg σ2).2 /\
  same_files (persist os mi l msg σ1).1 (persist os mi l msg σ2).1 /\
  logged (persist os mi l msg σ1).1 = logged σ1.
Proof.
  intros Hwf [Hs Ht]. rewrite !persist_unfold by done.
  destruct (imap.MsgEnvelope msg); [|done].
  destruct (imap.GetBody msg secName) as [lit|]; [|done].
  cbn zeta. destruct (imap.readErr lit); [done|].
  destruct (json_Encode _); [|done..].
  unfold os_WriteFile. destruct (writeFault os _) as [[e'|e' n]|]; [done|..];
    cbn [fst snd store trace logged]; unfold same_files;
    cbn [store trace]; by rewrite Hs, Ht.
Qed.

Lemma fetchLoop_same_files os mi l msgs σ1 σ2 :
  wf_locals l -> same_files σ1 σ2 ->
  (fetchLoop os mi l msgs σ1).2 = (fetchLoop os mi l msgs σ2).2 /\
  same_files (fetchLoop os mi l msgs σ1).1 (fetchLoop os mi l msgs σ2).1 /\
  logged (fetchLoop os mi l msgs σ1).1 = logged σ1.
Proof.
  revert l σ1 σ2. induction msgs as [|msg msgs IH]; intros l σ1 σ2 Hwf Hsame; [done|].
  cbn [fetchLoop].
  destruct (persist_same_files os mi l msg σ1 σ2 Hwf Hsame) as (Hr & Hsf & Hlog).
  destruct (persist os mi l msg σ1) as [σ1' r1] eqn:Hp1.
  destruct (persist os mi l msg σ2) as [σ2' r2] eqn:Hp2.
  cbn [fst snd] in Hr, Hsf, Hlog. subst r2.
  destruct r1 as [l1|e|m]; [|done..].
  rewrite <- Hlog. apply IH; [|done].
  by destruct (persist_Ok _ _ _ _ _ _ _ Hwf Hp1).
Qed.

Lemma Iter_same_files w1 w2 os c mi σ1 σ2 :
  same_files σ1 σ2 ->
  (Iter w1 os c mi σ1).2 = (Iter w2 os c mi σ2).2 /\
  same_files (Iter w1 os c mi σ1).1 (Iter w2 os c mi σ2).1.
Proof.
  intros Hsame. unfold Iter.
  destruct (selectErr c); [split; [done | by apply log_same_files]|].
  rewrite !log_store. destruct Hsame as [Hs Ht]. rewrite <- Hs.
  assert (Hsame : same_files σ1 σ2) by done.
  destruct (scan _ _ _ _ _ _ _) as [[[[xof key] n] msgList]|e|m] eqn:Hscan;
    try (split; [done | by apply log_same_files]).
  destruct (envelopesArm c); [split; [done | by apply log_same_files]|].
  destruct (returned (envelopes c)).
  { destruct (Contains _ _); (split; [done | by repeat apply log_same_files]). }
  destruct (Nat.eqb _ _); [split; [done | by repeat apply log_same_files]|].
  fold (locals_init xof key).
  match goal with
  | |- context [fetchLoop os mi ?l ?ms (log w1 ?a ?f ?v)] =>
    destruct (fetchLoop_same_files os mi l ms (log w1 a f v)
                (log w2 (log w2 (log w2 σ2 "Folder: %s" [ArgString (imap.Name mi)])
                           (TAB +:+ "fetch %05d messages")
                           [ArgInt (Z.of_nat (length msgList))])
                   (TAB +:+ "exist %05d messages") [ArgInt (Z.of_nat n)]))
      as (Hr & Hsf & _)
  end.
  { apply (scan_wf _ _ _ _ _ _ _ _ _ _ _ NewXOF_size zero_key_length Hscan). }
  { by repeat apply log_same_files. }
  destruct (fetchLoop os mi _ _ (log w1 _ _ _)) as [σ1' r1].
  destruct (fetchLoop os mi _ _ (log w2 _ _ _)) as [σ2' r2].
  cbn [fst snd] in Hr, Hsf. subst r2. destruct r1 as [l1|e|m]; [|done..].
  destruct (bodiesArm c); [done|].
  destruct (returned _); [done|]. split; [done | by apply log_same_files].
Qed.

Lemma Iter_quiet w os c mi σ :
  Verbose w = false -> logged (Iter w os c mi σ).1 = logged σ.
Proof.
  intros Hq. unfold Iter. rewrite !(log_quiet w) by done.
  destruct (selectErr c); [done|].
  destruct (scan _ _ _ _ _ _ _) as [[[[xof key] n] msgList]|e|m] eqn:Hscan;
    [|done..].
  destruct (envelopesArm c); [done|].
  destruct (returned (envelopes c)); [by destruct (Contains _ _)|].
  rewrite !(log_quiet w) by done.
  destruct (Nat.eqb _ _); [done|]. fold (locals_init xof key).
  destruct (fetchLoop_same_files os mi (locals_init xof key)
              (items (bodies c (list_to_set msgList))) σ σ) as (_ & _ & Hlog);
    [|done|].
  { apply (scan_wf _ _ _ _ _ _ _ _ _ _ _ NewXOF_size zero_key_length Hscan). }
  destruct (fetchLoop _ _ _ _ _) as [σ1 [l1|e|m]]; [|done..].
  destruct (bodiesArm c); [done|].
  destruct (returned _); [done|]. by rewrite log_quiet.
Qed.

Lemma iterAll_same_files w1 w2 os mbs σ1 σ2 :
  same_files σ1 σ2 ->
  (iterAll w1 os mbs σ1).2 = (iterAll w2 os mbs σ2).2 /\
  same_files (iterAll w1 os mbs σ1).1 (iterAll w2 os mbs σ2).1.
Proof.
  revert σ1 σ2. induction mbs as [|mb mbs IH]; intros σ1 σ2 Hsame; [done|].
  cbn [iterAll]. destruct (mb_ctxErr mb); [done|].
  destruct (Iter_same_files w1 w2 os (mb_session mb) (mb_info mb) σ1 σ2 Hsame)
    as [Hr Hsf].
  destruct (Iter w1 os _ _ σ1) as [σ1' r1]. destruct (Iter w2 os _ _ σ2) as [σ2' r2].
  cbn [fst snd] in Hr, Hsf. subst r2. destruct r1 as [[]|e|m]; [|done..].
  by apply IH.
Qed.

Lemma iterAll_quiet w os mbs σ :
  Verbose w = false -> logged (iterAll w os mbs σ).1 = logged σ.
Proof.
  intros Hq. revert σ. induction mbs as [|mb mbs IH]; intros σ; [done|].
  cbn [iterAll]. destruct (mb_ctxErr mb); [done|].
  pose proof (Iter_quiet w os (mb_session mb) (mb_info mb) σ Hq) as Hlog.
  destruct (Iter w os _ _ σ) as [σ1 [[]|e|m]]; [|done..].
  cbn [fst] in Hlog. by rewrite IH.
Qed.

(** X12. The flag [Verbose] has no effect on a run but on its log: with it
    on or off, [List] returns the same and writes the same files; with it
    off, nothing is logged. *)
Theorem List_Verbose_no_effect w1 w2 os srv server σ :
  (List w1 os srv server σ).2 = (List w2 os srv server σ).2 /\
  same_files (List w1 os srv server σ).1 (List w2 os srv server σ).1 /\
  (Verbose w1 = false -> logged (List w1 os srv server σ).1 = logged σ).
Proof.
  assert (Hrefl : same_files σ σ) by done.
  unfold List.
  destruct (dialErr srv); [done|]. destruct (loginErr srv); [done|].
  assert (Hgo :
    let run := fun w =>
      match iterAll w os (mailboxes srv) σ with
      | (σ0, Ok _) => match logoutErr srv with
                      | Some err => (σ0, Err err)
                      | None => (σ0, Ok ())
                      end
      | r => r
      end in
    (run w1).2 = (run w2).2 /\ same_files (run w1).1 (run w2).1 /\
    (Verbose w1 = false -> logged (run w1).1 = logged σ)).
  { cbn zeta.
    destruct (iterAll_same_files w1 w2 os (mailboxes srv) σ σ Hrefl) as [Hr Hsf].
    pose proof (iterAll_quiet w1 os (mailboxes srv) σ) as Hq.
    destruct (iterAll w1 os _ σ) as [σ1 r1]. destruct (iterAll w2 os _ σ) as [σ2 r2].
    cbn [fst snd] in Hr, Hsf, Hq. subst r2.
    destruct r1 as [[]|e|m]; [|done..]. by destruct (logoutErr srv). }
  destruct (listArm srv); [exact Hgo|].
  destruct (listErr srv); [done | exact Hgo].
Qed.

End Logging.

(** ** Running twice *)

Section RunTwice.
Context `{Primitives}.

Lemma archived_mono (st st' : Dir) msg :
  (forall name, is_Some (st !! name) -> is_Some (st' !! name)) ->
  archived st msg -> archived st' msg.
Proof.
  intros Hmono. unfold archived. destruct (imap.MsgEnvelope msg); [apply Hmono | done].
Qed.

(** A second loop that ends without an error has archived all of its
    messages. *)
Lemma fetchLoop_Ok_archived os mi l msgs σ σ' l' :
  wf_locals l -> fetchLoop os mi l msgs σ = (σ', Ok l') ->
  Forall (archived (store σ')) msgs.
Proof.
  revert l σ. induction msgs as [|msg msgs IH]; intros l σ Hwf; [by constructor|].
  cbn [fetchLoop].
  destruct (persist os mi l msg σ) as [σ1 [l1|e|m]] eqn:Hp; [|done..].
  destruct (persist_Ok _ _ _ _ _ _ _ Hwf Hp) as (Hwf1 & ev & _ & Hrec & data & _ & Hst).
  intros Hfl. constructor; [|by eapply IH].
  destruct (fetchLoop_events os mi l1 msgs σ1 Hwf1) as (evs & _ & Hst' & _).
  rewrite Hfl in Hst'. cbn [fst] in Hst'.
  apply (archived_mono (store σ1)).
  { intros name. rewrite Hst'. apply replay_lookup_Some. }
  pose proof (record_of_msgName _ _ Hrec) as Hname. unfold archived, msgName in *.
  destruct (imap.MsgEnvelope msg) as [envelope|]; [|done].
  injection Hname as Hname. rewrite Hst, Hname, lookup_insert_eq. by eexists.
Qed.

(** When [Iter] returns nil for a mailbox that is served as it is, all
    the messages of the mailbox are archived. *)
Lemma Iter_serve_archives w os mi msgs σ σ' :
  stat_reliable os ->
  Iter w os (Scenario.serve msgs) mi σ = (σ', Ok ()) ->
  Forall (archived (store σ')) msgs.
Proof.
  intros Hrel.
  unfold Iter.
  cbn [Scenario.serve selectErr envelopes envelopesArm bodies bodiesArm items returned].
  rewrite log_store.
  destruct (scan _ _ _ _ _ _ _) as [[[[xof key] n] msgList]|e|m] eqn:Hscan; [|done..].
  assert (Hwf : wf_locals (locals_init xof key))
    by apply (scan_wf _ _ _ _ _ _ _ _ _ _ _ NewXOF_size zero_key_length Hscan).
  apply (scan_pending _ _ _ _ _ _ _ _ _ _ _ (stat_reliable_honest _ Hrel)
           NewXOF_size zero_key_length) in Hscan.
  cbn [app] in Hscan. subst msgList.
  set (pend := imap.SeqNum <$> filter (fun m => ~ archived (store σ) m) msgs).
  destruct (Nat.eqb (length pend) 0) eqn:Hlen.
  - intros [= <-]. log_frame. apply Forall_forall. intros msg Hmsg.
    destruct (decide (archived (store σ) msg)) as [Ha|Hna]; [done|].
    assert (Hin : imap.SeqNum msg ∈ pend).
    { apply list_elem_of_fmap_2, list_elem_of_filter. by split. }
    destruct pend; [by apply elem_of_nil in Hin | done].
  - fold (locals_init xof key).
    destruct (fetchLoop _ _ _ _ _) as [σ1 [l1|e|m]] eqn:Hfl; [|done..].
    intros [= <-]. log_frame.
    pose proof (fetchLoop_Ok_archived _ _ _ _ _ _ _ Hwf Hfl) as Hall.
    destruct (fetchLoop_events os mi (locals_init xof key)
                (filter (fun m => imap.SeqNum m ∈ (list_to_set pend : gset N)) msgs)
                (world_at_fetch w mi σ n pend) Hwf) as (evs & _ & Hst & _).
    unfold world_at_fetch in Hst. rewrite Hfl in Hst. cbn [fst] in Hst.
    rewrite !log_store in Hst.
    rewrite Forall_forall in Hall. apply Forall_forall. intros msg Hmsg.
    destruct (decide (archived (store σ) msg)) as [Ha|Hna].
    + apply (archived_mono (store σ)); [|done].
      intros name. rewrite Hst. apply replay_lookup_Some.
    + apply Hall, list_elem_of_filter. split; [|done].
      apply elem_of_list_to_set, list_elem_of_fmap_2, list_elem_of_filter. by split.
Qed.

Lemma iterAll_grows w os mbs σ name :
  is_Some (store σ !! name) -> is_Some (store (iterAll w os mbs σ).1 !! name).
Proof.
  destruct (iterAll_events w os mbs σ) as (evs & _ & -> & _).
  apply replay_lookup_Some.
Qed.

(** A run that ends without an error over mailboxes served as they are
    has archived every message of every mailbox. *)
Lemma iterAll_serve_archives w os (boxes : list (imap.MailboxInfo * list imap.Message)) σ σ' :
  stat_reliable os ->
  iterAll w os (uncurry Scenario.mailbox <$> boxes) σ = (σ', Ok ()) ->
  Forall (fun box => Forall (archived (store σ')) box.2) boxes.
Proof.
  intros Hrel. revert σ.
  induction boxes as [|[mi msgs] boxes IH]; intros σ; [by constructor|].
  cbn [fmap list_fmap uncurry iterAll Scenario.mailbox mb_ctxErr mb_session mb_info].
  destruct (Iter w os (Scenario.serve msgs) mi σ) as [σ1 [[]|e|m]] eqn:Hit; [|done..].
  intros Hall. constructor; [|by eapply IH].
  cbn [snd]. eapply Forall_impl; [exact (Iter_serve_archives _ _ _ _ _ _ Hrel Hit)|].
  intros msg. apply archived_mono. intros name Hs.
  pose proof (iterAll_grows w os (uncurry Scenario.mailbox <$> boxes) σ1 name Hs) as Hg.
  by rewrite Hall in Hg.
Qed.

(** Over a mailbox whose messages are all archived, [Iter] returns nil
    and writes nothing. *)
Lemma Iter_archived_noop w os c mi σ :
  selectErr c = None -> stat_reliable os ->
  envelopesArm c = ArmResult -> returned (envelopes c) = None ->
  Forall (archived (store σ)) (items (envelopes c)) ->
  (Iter w os c mi σ).2 = Ok () /\ same_files (Iter w os c mi σ).1 σ.
Proof.
  intros Hsel Hrel Harm Hret Hall.
  assert (Henv : Forall has_envelope (items (envelopes c))).
  { eapply Forall_impl; [exact Hall|]. intros msg. unfold archived, has_envelope.
    by destruct (imap.MsgEnvelope msg). }
  destruct (scan_reliable os (store σ) _ _ _ 0 [] Hrel NewXOF_size
              zero_key_length Henv) as (xof & key & _ & _ & Hscan).
  destruct (filter_all (archived (store σ)) _ Hall) as [Hf1 Hf2].
  rewrite Hf1, Hf2 in Hscan. cbn [fmap list_fmap app Nat.add] in Hscan.
  unfold Iter, same_files. rewrite Hsel, log_store, Hscan, Harm, Hret.
  cbn [length Nat.eqb]. by log_frame.
Qed.

(** Over mailboxes whose messages are all archived, the run writes
    nothing and returns nil. *)
Lemma iterAll_all_archived w os (boxes : list (imap.MailboxInfo * list imap.Message)) σ :
  stat_reliable os ->
  Forall (fun box => Forall (archived (store σ)) box.2) boxes ->
  (iterAll w os (uncurry Scenario.mailbox <$> boxes) σ).2 = Ok () /\
  same_files (iterAll w os (uncurry Scenario.mailbox <$> boxes) σ).1 σ.
Proof.
  intros Hrel Hall. revert σ Hall.
  induction boxes as [|[mi msgs] boxes IH]; intros σ Hall; [done|].
  apply Forall_cons in Hall as [Hmsgs Hall]. cbn [snd] in Hmsgs.
  cbn [fmap list_fmap uncurry iterAll Scenario.mailbox mb_ctxErr mb_session mb_info].
  destruct (Iter_archived_noop w os (Scenario.serve msgs) mi σ eq_refl Hrel eq_refl
              eq_refl Hmsgs) as (Hr & Hst & Htr).
  destruct (Iter w os (Scenario.serve msgs) mi σ) as [σ1 r]. cbn [fst snd] in *.
  subst r. destruct (IH σ1) as [Hr' [Hst' Htr']].
  { by rewrite Hst. }
  split; [done|]. split; [by rewrite Hst' | by rewrite Htr'].
Qed.

(** X13. Running twice is running once. After a run over mailboxes served as
    they are has returned nil, every message of every mailbox is archived,
    and a second run over the same mailboxes returns nil and writes no file. *)
Theorem List_twice w os (boxes : list (imap.MailboxInfo * list imap.Message))
    server σ σ1 :
  stat_reliable os ->
  let srv := Scenario.server (uncurry Scenario.mailbox <$> boxes) in
  List w os srv server σ = (σ1, Ok ()) ->
  Forall (fun box => Forall (archived (store σ1)) box.2) boxes /\
  (List w os srv server σ1).2 = Ok () /\
  same_files (List w os srv server σ1).1 σ1.
Proof.
  intros Hrel. cbn zeta. unfold List.
  cbn [Scenario.server dialErr loginErr listArm listErr mailboxes logoutErr].
  destruct (iterAll w os _ σ) as [σ' [[]|e|m]] eqn:Hrun; [|done..].
  intros [= <-].
  pose proof (iterAll_serve_archives _ _ _ _ _ Hrel Hrun) as Hall.
  split; [done|].
  destruct (iterAll_all_archived w os boxes σ' Hrel Hall) as [Hr Hsf].
  destruct (iterAll w os _ σ') as [σ2 r]. cbn [fst snd] in *. by subst r.
Qed.

(** X14. [run] from the command line. It returns nil only when both flags
    were given, the directory could be made and [List] returned nil; with a
    flag missing, or no directory, it leaves the store and the session
    alone; and like [List] it never removes a file. *)
Theorem run_guards flags mkdirErr os srv σ :
  let r := run flags mkdirErr os srv σ in
  (r.2 = Ok () ->
   flag_host flags <> "" /\ flag_store flags <> "" /\ mkdirErr = None) /\
  (flag_host flags = "" \/ flag_store flags = "" \/ is_Some mkdirErr ->
   r.1 = σ /\ exists e, r.2 = Err e) /\
  (flag_host flags = "" -> r.2 = Err (errorString "missing host")) /\
  (forall name, is_Some (store σ !! name) -> is_Some (store r.1 !! name)).
Proof.
  cbn zeta. unfold run.
  destruct (flag_host flags) as [|a host] eqn:Hh; cbn [String.length Nat.eqb].
  { split; [done|]. split; [intros _; split; [done | by eexists]|]. by split. }
  destruct (flag_store flags) as [|b st] eqn:Hs; cbn [String.length Nat.eqb].
  { split; [done|]. split; [intros _; split; [done | by eexists]|]. by split. }
  destruct mkdirErr as [err|].
  { split; [done|]. split; [intros _; split; [done | by eexists]|]. by split. }
  split; [done|]. split.
  { intros [Hc|[Hc|[? Hc]]]; discriminate Hc. }
  split; [done|]. intros name Hname. by apply List_grows.
Qed.

End RunTwice.

(** ** No panic, and the exact partition *)

Section Safety.
Context `{Primitives}.

(** X15. With a reliable [os.Stat] the scan ends with the exact partition of
    the mailbox: the count of the archived messages, and the sequence
    numbers of all the others in the order of the stream. *)
Theorem scan_partitions os st msgs :
  stat_reliable os ->
  Forall has_envelope msgs ->
  exists xof key,
    scan os st (blake2b.NewXOF keySize) (replicate keySize Byte.x00) msgs 0 [] =
    Ok (xof, key, length (filter (archived st) msgs),
        imap.SeqNum <$> filter (fun m => ~ archived st m) msgs).
Proof.
  intros Hrel Henv.
  destruct (scan_reliable os st _ _ msgs 0 [] Hrel NewXOF_size zero_key_length Henv)
    as (xof & key & _ & _ & Hscan).
  by exists xof, key.
Qed.

Lemma scan_no_panic os st xof key msgs n ml m :
  blake2b.size xof = keySize -> length key = keySize ->
  Forall has_envelope msgs ->
  scan os st xof key msgs n ml <> Panic m.
Proof.
  intros Hsz Hlen Henv. revert xof key n ml Hsz Hlen.
  induction Henv as [|msg msgs [envelope Hm] _ IH]; intros xof key n ml Hsz Hlen;
    [done|].
  cbn [scan]. rewrite Hm, (fn_Derive _ _ _ Hsz Hlen).
  destruct (os_Stat os st _) as [err|].
  - destruct (os_IsNotExist err); [|done]. apply IH; [done | apply Derive_length].
  - apply IH; [done | apply Derive_length].
Qed.

Lemma fetchLoop_no_panic os mi l msgs σ m :
  wf_locals l ->
  (forall h m', json_Encode h <> Panic m') ->
  Forall (fun msg => has_envelope msg /\ is_Some (imap.GetBody msg secName)) msgs ->
  (fetchLoop os mi l msgs σ).2 <> Panic m.
Proof.
  intros Hwf Hjson Hall. revert l σ Hwf.
  induction Hall as [|msg msgs [[envelope Hm] [lit Hb]] _ IH]; intros l σ Hwf; [done|].
  cbn [fetchLoop].
  destruct (persist os mi l msg σ) as [σ1 [l1|e1|m1]] eqn:Hp; [|done|].
  - apply IH. by destruct (persist_Ok _ _ _ _ _ _ _ Hwf Hp).
  - rewrite persist_unfold in Hp by done. rewrite Hm, Hb in Hp. cbn zeta in Hp.
    destruct (imap.readErr lit); [done|].
    destruct (json_Encode _) as [block|err|m2] eqn:Hj; [|done|by destruct (Hjson _ _ Hj)].
    unfold os_WriteFile in Hp. by destruct (writeFault os _) as [[]|].
Qed.

(** X16. [Iter] does not panic when every message of the envelope fetch has
    an envelope and every message of a body fetch has an envelope and the
    body section that was asked for (and the encoder does not panic): it
    returns nil or an error. *)
Theorem Iter_never_panics w os c mi σ :
  Forall has_envelope (items (envelopes c)) ->
  (forall ss, Forall (fun msg => has_envelope msg /\
                                 is_Some (imap.GetBody msg secName))
                     (items (bodies c ss))) ->
  (forall h m, json_Encode h <> Panic m) ->
  forall m, (Iter w os c mi σ).2 <> Panic m.
Proof.
  intros Henv Hbodies Hjson m. unfold Iter.
  destruct (selectErr c); [done|].
  destruct (scan _ _ _ _ _ _ _) as [[[[xof key] n] msgList]|e1|m1] eqn:Hscan;
    [|done|].
  2: { by destruct (scan_no_panic _ _ _ _ _ _ _ m1 NewXOF_size zero_key_length
                      Henv Hscan). }
  destruct (envelopesArm c); [done|].
  destruct (returned (envelopes c)); [by destruct (Contains _ _)|].
  destruct (Nat.eqb _ _); [done|]. fold (locals_init xof key).
  match goal with
  | |- context [fetchLoop os mi ?l ?ms ?s] =>
    pose proof (fetchLoop_no_panic os mi l ms s) as Hnp
  end.
  destruct (fetchLoop _ _ _ _ _) as [σ1 [l1|e1|m1]]; [|done|].
  - destruct (bodiesArm c); [done|]. by destruct (returned _).
  - cbn [snd]. intros [= ->]. eapply (Hnp m); [|done|apply Hbodies|done].
    apply (scan_wf _ _ _ _ _ _ _ _ _ _ _ NewXOF_size zero_key_length Hscan).
Qed.

End Safety.

(** ** The further properties, on concrete inputs *)

(** [fn] with a XOF of 16 bytes and a key slice of 32: the read is short
    and [fn] returns the invalid-read error, by [fn_cases]. *)
Lemma fn_cases_witness :
  (@fn Scenario.prims Scenario.xof16 (replicate 32 Byte.x00) "a@x").2 =
  Err (errorString "xof invalid read 16: %!w(<nil>)").
Proof.
  destruct (@fn_cases Scenario.prims Scenario.xof16 (replicate 32 Byte.x00) "a@x")
    as (_ & Hshort & _).
  destruct Hshort as [Hr _].
  - vm_compute. lia.
  - vm_compute. lia.
  - exact Hr.
Defined.

Lemma scan_counts_each_once_witness :
  2 + length ([] : list N) = 0 + length ([] : list N) + length Scenario.inbox.
Proof.
  destruct (@scan_counts_each_once Scenario.prims Scenario.os_ok
              (store (@Iter Scenario.prims Scenario.worker Scenario.os_ok
                        (Scenario.serve Scenario.inbox) Scenario.INBOX
                        Scenario.world0).1)
              (@blake2b.NewXOF keySize) (replicate keySize Byte.x00)
              Scenario.inbox 0 []
              (@xofAfter "b@x") (@Derive Scenario.prims "b@x") 2 [])
    as (Hc & _).
  - vm_compute. reflexivity.
  - exact Hc.
Defined.

Lemma Iter_stat_failure_witness :
  (@Iter Scenario.prims Scenario.worker Scenario.os_stat_denied
     (Scenario.serve Scenario.inbox) Scenario.INBOX Scenario.world0).2 =
  Err (Errorf_w "store stat: " (errorString "permission denied")).
Proof.
  rewrite (@Iter_stat_failure Scenario.prims Scenario.worker Scenario.os_stat_denied
             (Scenario.serve Scenario.inbox) Scenario.INBOX Scenario.world0
             [Scenario.message 1 "a@x" "Hel" "lo"]
             (Scenario.message 2 "b@x" "By" "e") []
             (Scenario.envelope "b@x" "<parent@x>")
             (errorString "permission denied")).
  - reflexivity.
  - reflexivity.
  - reflexivity.
  - constructor; [|constructor]. eexists. split; [reflexivity|].
    vm_compute. reflexivity.
  - reflexivity.
  - vm_compute. reflexivity.
  - reflexivity.
Defined.

Lemma Iter_nil_envelope_panics_witness :
  (@Iter Scenario.prims Scenario.worker Scenario.os_ok
     (Scenario.serve Scenario.headless) Scenario.INBOX Scenario.world0).2 =
  Panic nil_deref.
Proof.
  rewrite (@Iter_nil_envelope_panics Scenario.prims Scenario.worker Scenario.os_ok
             (Scenario.serve Scenario.headless) Scenario.INBOX Scenario.world0
             [Scenario.message 1 "a@x" "Hel" "lo"]
             (Scenario.message_no_envelope 2) []).
  - reflexivity.
  - reflexivity.
  - reflexivity.
  - constructor; [|constructor]. eexists. split; reflexivity.
  - reflexivity.
Defined.

Lemma persist_chunking_witness :
  @persist Scenario.prims Scenario.os_ok Scenario.INBOX Scenario.locals0
    (Scenario.message 1 "a@x" "Hel" "lo") Scenario.world0 =
  @persist Scenario.prims Scenario.os_ok Scenario.INBOX Scenario.locals0
    (Scenario.message 1 "a@x" "H" "ello") Scenario.world0.
Proof.
  eapply (@persist_chunking Scenario.prims).
  - split; reflexivity.
  - reflexivity.
  - vm_compute. reflexivity.
  - vm_compute. reflexivity.
  - reflexivity.
  - reflexivity.
Defined.

Lemma short_write_stays_witness :
  let r := @persist Scenario.prims Scenario.os_disk_full Scenario.INBOX
             Scenario.locals0 (Scenario.message 2 "b@x" "By" "e")
             Scenario.world0 in
  r.2 = Err (Errorf_w "write: " (errorString "no space left on device")) /\
  store r.1 !! @storeName Scenario.prims "b@x" =
  Some (bytes_of_string "Key=MJAHQA").
Proof.
  cbn zeta.
  destruct (@short_write_stays Scenario.prims Scenario.os_disk_full Scenario.INBOX
              Scenario.locals0 (Scenario.message 2 "b@x" "By" "e")
              (Scenario.envelope "b@x" "<parent@x>")
              {| imap.chunks := [bytes_of_string "By"; bytes_of_string "e"];
                 imap.readErr := None |}
              (match @json_Encode Scenario.prims
                       (@header_for Scenario.prims Scenario.INBOX
                          (Scenario.envelope "b@x" "<parent@x>")
                          (bytes_of_string "Bye")) with
               | Ok block => block
               | _ => []
               end)
              (errorString "no space left on device") 10 Scenario.world0)
    as (Hr & Hst & _).
  - split; reflexivity.
  - reflexivity.
  - vm_compute. reflexivity.
  - reflexivity.
  - vm_compute. reflexivity.
  - vm_compute. reflexivity.
  - split; [exact Hr|]. etrans; [exact Hst|]. vm_compute. reflexivity.
Defined.

Lemma Iter_fetches_pending_only_witness :
  @Iter Scenario.prims Scenario.worker Scenario.os_ok
    (Scenario.serve Scenario.inbox) Scenario.INBOX Scenario.world0 =
  @Iter Scenario.prims Scenario.worker Scenario.os_ok
    Scenario.serve_inbox_only Scenario.INBOX Scenario.world0.
Proof.
  apply (@Iter_fetches_pending_only Scenario.prims).
  - intros name e. discriminate.
  - reflexivity.
  - reflexivity.
  - reflexivity.
  - reflexivity.
  - right. vm_compute. reflexivity.
Defined.


Lemma Iter_errors_witness :
  @IterError Scenario.prims Scenario.os_ok Scenario.vanished Scenario.no_messages.
Proof.
  apply (@Iter_errors Scenario.prims Scenario.worker Scenario.os_ok
           Scenario.vanished Scenario.Empty Scenario.world0
           (@Iter Scenario.prims Scenario.worker Scenario.os_ok
              Scenario.vanished Scenario.Empty Scenario.world0).1).
  vm_compute. reflexivity.
Defined.

Lemma List_twice_witness :
  let boxes := [(Scenario.INBOX, Scenario.inbox);
                (Scenario.Archive, Scenario.archive)] in
  let srv := Scenario.server (uncurry Scenario.mailbox <$> boxes) in
  let σ1 := (@List Scenario.prims Scenario.worker Scenario.os_ok srv "imap.x:993"
               Scenario.world0).1 in
  (@List Scenario.prims Scenario.worker Scenario.os_ok srv "imap.x:993" σ1).2
  = Ok () /\
  trace (@List Scenario.prims Scenario.worker Scenario.os_ok srv "imap.x:993" σ1).1
  = trace σ1.
Proof.
  cbn zeta.
  destruct (@List_twice Scenario.prims Scenario.worker Scenario.os_ok
              [(Scenario.INBOX, Scenario.inbox);
               (Scenario.Archive, Scenario.archive)]
              "imap.x:993" Scenario.world0
              (@List Scenario.prims Scenario.worker Scenario.os_ok
                 (Scenario.server
                    (uncurry Scenario.mailbox <$>
                       [(Scenario.INBOX, Scenario.inbox);
                        (Scenario.Archive, Scenario.archive)]))
                 "imap.x:993" Scenario.world0).1)
    as (_ & Hr & _ & Htr).
  - intros name. reflexivity.
  - vm_compute. reflexivity.
  - split; [exact Hr | exact Htr].
Defined.

Lemma scan_partitions_witness :
  exists xof key,
    @scan Scenario.prims Scenario.os_ok Scenario.world0.(store)
      (@blake2b.NewXOF keySize) (replicate keySize Byte.x00) Scenario.inbox 0 [] =
    Ok (xof, key, 0, [1%N; 2%N]).
Proof.
  apply (@scan_partitions Scenario.prims Scenario.os_ok (store Scenario.world0)
           Scenario.inbox).
  - intros name. reflexivity.
  - repeat constructor; eexists; reflexivity.
Defined.

Lemma Iter_never_panics_witness :
  match (@Iter Scenario.prims Scenario.worker Scenario.os_ok
           (Scenario.serve Scenario.broken) Scenario.INBOX Scenario.world0).2 with
  | Panic _ => False
  | _ => True
  end.
Proof.
  pose proof (@Iter_never_panics Scenario.prims Scenario.worker Scenario.os_ok
                (Scenario.serve Scenario.broken) Scenario.INBOX Scenario.world0)
    as Hnp.
  destruct (@Iter Scenario.prims Scenario.worker Scenario.os_ok
              (Scenario.serve Scenario.broken) Scenario.INBOX Scenario.world0).2
    as [u|e|pm]; [exact I | exact I |].
  apply (Hnp) with (m := pm); [| | |reflexivity].
  - repeat constructor; eexists; reflexivity.
  - intros ss. cbn [Scenario.serve bodies items].
    apply Forall_forall. intros msg Hin.
    apply list_elem_of_filter in Hin as [_ Hin].
    apply list_elem_of_In in Hin.
    destruct Hin as [<-|[<-|[]]]; split; eexists; vm_compute; reflexivity.
  - intros h m. discriminate.
Defined.


(** C6, refuted. Of two messages of one mailbox with the same message id,
    the first is persisted and the body of the second fails to read:
    [List] returns the error wrapped, and a file of the key of the message
    that was being processed at the failure exists in the store. *)
Lemma List_failure_twin_file_exists :
  let first := Scenario.message 1 "a@x" "Hel" "lo" in
  let msg := Scenario.message_bad_body 2 "a@x" "par" in
  let srv := Scenario.server
               [Scenario.mailbox Scenario.INBOX Scenario.twins_broken] in
  let r := @List Scenario.prims Scenario.worker Scenario.os_ok srv "imap.x:993"
             Scenario.world0 in
  @fails Scenario.prims Scenario.os_ok Scenario.INBOX
    (Scenario.serve Scenario.twins_broken) (store Scenario.world0)
    (BodyReadFails [first] msg []) /\
  r.2 = Err (Errorf_w "iter: " (errorString "hash body")) /\
  @msgName Scenario.prims msg = Some (@storeName Scenario.prims "a@x") /\
  store Scenario.world0 !! @storeName Scenario.prims "a@x" = None /\
  is_Some (store r.1 !! @storeName Scenario.prims "a@x").
Proof.
  cbn zeta. split; [|split; [|split; [|split]]].
  - split; [reflexivity|]. split; [reflexivity|].
    split; [vm_compute; discriminate|]. split; [vm_compute; reflexivity|].
    split; [|split; [eexists; reflexivity|]].
    + constructor; [|constructor]. eexists _, _, _.
      repeat split; vm_compute; reflexivity.
    + eexists _, _. split; vm_compute; reflexivity.
  - vm_compute. reflexivity.
  - vm_compute. reflexivity.
  - vm_compute. reflexivity.
  - eexists. vm_compute. reflexivity.
Qed.
